(** * NightCrawler: a shallow embedding of [nightcrawler.py]

    The crawler keeps four module-level objects ([visited_urls],
    [discovered_urls], [response_headers], [url_queue]) that ten asyncio
    worker tasks share.  The embedding threads them through an explicit
    state, splits every coroutine at its [await]s and lets a schedule pick
    which task runs its next segment.  The browser (Playwright), the web
    and [urllib.parse] are collaborators of the program: they enter as
    parameters, and a concrete model of each is given for the examples. *)

From Stdlib Require Import ZArith Ascii String List Lia.
From Stdlib Require Import DecimalString DecimalPos.
From stdpp Require Import base option list gmap strings sets fin_sets fin_maps.

Set Warnings "-clear-no-such-hyp".

Local Open Scope string_scope.
Local Open Scope nat_scope.
Local Open Scope list_scope.
Local Open Scope stdpp_scope.

(** ** Python string operations used by the source *)

Module Str.

(** [sub in s] on [str]. *)
Fixpoint contains (sub s : string) : bool :=
  String.prefix sub s ||
  match s with
  | EmptyString => false
  | String _ s' => contains sub s'
  end.

(** [s.endswith(suf)]. *)
Fixpoint endswith (s suf : string) : bool :=
  String.eqb s suf ||
  match s with
  | EmptyString => false
  | String _ s' => endswith s' suf
  end.

(** [c.lower()] for one character of the ASCII range. *)
Definition lower_ascii (c : ascii) : ascii :=
  let n := nat_of_ascii c in
  if (65 <=? n)%nat && (n <=? 90)%nat then ascii_of_nat (n + 32) else c.

(** [s.lower()]; characters are bytes here, so only A-Z change. *)
Fixpoint lower (s : string) : string :=
  match s with
  | EmptyString => EmptyString
  | String c s' => String (lower_ascii c) (lower s')
  end.

(** [c in s] for a single character. *)
Fixpoint has_char (c : ascii) (s : string) : bool :=
  match s with
  | EmptyString => false
  | String d s' => Ascii.eqb c d || has_char c s'
  end.

(** [s.partition(c)]: the text before the first [c], and the text after
    it when [c] occurs. *)
Fixpoint partition (c : ascii) (s : string) : string * option string :=
  match s with
  | EmptyString => (EmptyString, None)
  | String d s' =>
      if Ascii.eqb c d then (EmptyString, Some s')
      else let '(a, b) := partition c s' in (String d a, b)
  end.

(** The text after the last [c], the whole of [s] when [c] is absent:
    [s.rpartition(c)[2]]. *)
Fixpoint after_last (c : ascii) (s : string) : string :=
  match s with
  | EmptyString => EmptyString
  | String d s' =>
      if has_char c s' then after_last c s'
      else if Ascii.eqb c d then s' else s
  end.

(** Text up to the first character satisfying [p], and the rest
    (starting at that character). *)
Fixpoint break (p : ascii -> bool) (s : string) : string * string :=
  match s with
  | EmptyString => (EmptyString, EmptyString)
  | String d s' =>
      if p d then (EmptyString, s)
      else let '(a, b) := break p s' in (String d a, b)
  end.

Fixpoint forallb (p : ascii -> bool) (s : string) : bool :=
  match s with
  | EmptyString => true
  | String d s' => p d && forallb p s'
  end.

Fixpoint filter (p : ascii -> bool) (s : string) : string :=
  match s with
  | EmptyString => EmptyString
  | String d s' => if p d then String d (filter p s') else filter p s'
  end.

Fixpoint lstrip (p : ascii -> bool) (s : string) : string :=
  match s with
  | EmptyString => EmptyString
  | String d s' => if p d then lstrip p s' else s
  end.

(** Python truthiness of a [str]. *)
Definition truthy (s : string) : bool :=
  match s with EmptyString => false | _ => true end.

End Str.

(** ** A model of [urllib.parse]

    [urlparse] and [urljoin] are library functions.  The crawler is
    parameterised over them below; this module gives the concrete
    [urlparse] used in the examples.  It follows [urlsplit]/[urlparse] of
    CPython 3.11 on byte strings: leading C0 controls and spaces are
    stripped, tab/CR/LF are removed, the scheme is split off and
    lower-cased, then netloc, fragment, query and params.  [None] stands
    for [ValueError]; of the three checks that raise, only the unbalanced
    bracket test is modelled. *)

Module Urllib.

Record ParseResult := mkParseResult {
  scheme : string;
  netloc : string;
  path : string;
  params : string;
  query : string;
  fragment : string
}.

Definition is_c0_or_space (c : ascii) : bool := (nat_of_ascii c <=? 32)%nat.

Definition is_unsafe (c : ascii) : bool :=
  let n := nat_of_ascii c in (n =? 9)%nat || (n =? 10)%nat || (n =? 13)%nat.

Definition is_alpha (c : ascii) : bool :=
  let n := nat_of_ascii c in
  ((65 <=? n) && (n <=? 90) || (97 <=? n) && (n <=? 122))%nat.

Definition is_digit (c : ascii) : bool :=
  let n := nat_of_ascii c in ((48 <=? n) && (n <=? 57))%nat.

Definition is_scheme_char (c : ascii) : bool :=
  is_alpha c || is_digit c || Str.has_char c "+-.".

Definition uses_params : list string :=
  [""; "ftp"; "hdl"; "prospero"; "http"; "imap"; "https"; "shttp"; "rtsp";
   "rtspu"; "sip"; "sips"; "mms"; "sftp"; "tel"].

(** The scheme test of [urlsplit]: [(scheme, rest)]. *)
Definition split_scheme (url : string) : string * string :=
  match Str.partition ":" url with
  | (String c0 _ as pre, Some rest) =>
      if is_alpha c0 && Str.forallb is_scheme_char pre
      then (Str.lower pre, rest) else ("", url)
  | _ => ("", url)
  end.

Definition is_netloc_delim (c : ascii) : bool := Str.has_char c "/?#".

(** [_splitnetloc(url, 2)] after the [url[:2] == '//'] test. *)
Definition split_netloc (url : string) : string * string :=
  match url with
  | String "/" (String "/" rest) => Str.break is_netloc_delim rest
  | _ => ("", url)
  end.

Definition brackets_ok (nl : string) : bool :=
  Bool.eqb (Str.has_char "[" nl) (Str.has_char "]" nl).

(** [_splitparams]. *)
Definition splitparams (p : string) : string * string :=
  let last := Str.after_last "/" p in
  match Str.partition ";" last with
  | (_, None) => (p, "")
  | (seg, Some ps) =>
      (String.append
         (String.substring 0 (String.length p - String.length last) p) seg,
       ps)
  end.

Definition urlparse (url0 : string) : option ParseResult :=
  let url := Str.filter (fun c => negb (is_unsafe c))
               (Str.lstrip is_c0_or_space url0) in
  let '(sch, url) := split_scheme url in
  let '(nl, url) := split_netloc url in
  if negb (brackets_ok nl) then None else
  let '(url, frag) := Str.partition "#" url in
  let '(url, qry) := Str.partition "?" url in
  let '(pth, prm) :=
    if bool_decide (sch ∈ uses_params) && Str.has_char ";" url
    then splitparams url else (url, "") in
  Some (mkParseResult sch nl pth prm (default "" qry) (default "" frag)).


(** [urljoin] restricted to links that are absolute URLs in the spelling
    [urlunparse] gives them: on those it returns the link. *)
Definition urljoin_absolute (base link : string) : option string := Some link.

End Urllib.

(** ** The page driver

    What Playwright reports for one URL.  [responses] are the header
    dictionaries of the responses seen while the page loads, in arrival
    order; [outcome] tells how far the page work gets. *)

Inductive element :=
  | Element (href src : option string)  (* the two attributes read by [extract_links] *)
  | Detached.                           (* [get_attribute] raises *)

Inductive page_outcome :=
  | NavError                            (* [goto] or one of the waits raises *)
  | QueryError                          (* [query_selector_all] raises *)
  | Rendered (elements : list element).

Record page := mkPage {
  responses : list (list (string * string));
  outcome : page_outcome
}.

(** ** Shared state and tasks *)

(** Where a worker task is suspended. *)
Inductive wstate :=
  | Idle                                (* in [url_queue.get()] *)
  | Opening (url : string)              (* [crawl_page]: [new_context], [new_page] *)
  | Loading (url : string) (pending : list (list (string * string)))
  | Extracting (url : string) (todo : list element) (links : gset string)
  | Closing (url : string)              (* [finally]: [page.close()] *)
  | Finished                            (* left the loop through [break] *)
  | Cancelled                           (* ended by [CancelledError] *)
  | Cancelling.                         (* [task.cancel()] called, not yet delivered *)

Inductive mstate :=
  | Joining                             (* [await url_queue.join()] *)
  | ClosingBrowser                      (* [await browser.close()] *)
  | Returned.

(** Operations on shared objects and debug lines, newest first. *)
Inductive event :=
  | EvCrawling (url : string)           (* debug line "Crawling: url" *)
  | EvErrExtract (url : string)         (* debug line "Error extracting links from url" *)
  | EvErrCrawl (url : string)           (* debug line "Error crawling url" *)
  | EvPut (page : option string) (item : option string)
                                        (* [url_queue.put(item)], made while crawling [page] *)
  | EvGet (task : nat) (item : option string)
  | EvTaskDone (task : nat)
  | EvCancel (task : nat)
  | EvCloseBrowser.

#[global] Instance event_eq_dec : EqDecision event.
Proof. solve_decision. Defined.

Record State := mkState {
  visited_urls : gset string;
  discovered_urls : gset string;
  response_headers : gmap string string;
  queue_items : list (option string);   (* [url_queue]: pending items, head first *)
  unfinished_tasks : nat;               (* [url_queue]: puts not yet matched by [task_done] *)
  tasks : list wstate;
  orchestrator : mstate;
  open_contexts : list string;          (* browser contexts not closed, by page URL *)
  open_pages : list string;             (* pages not closed, by URL *)
  browser_open : bool;
  trace : list event
}.

Definition set_visited v s :=
  mkState v (discovered_urls s) (response_headers s) (queue_items s)
    (unfinished_tasks s) (tasks s) (orchestrator s) (open_contexts s)
    (open_pages s) (browser_open s) (trace s).
Definition set_discovered d s :=
  mkState (visited_urls s) d (response_headers s) (queue_items s)
    (unfinished_tasks s) (tasks s) (orchestrator s) (open_contexts s)
    (open_pages s) (browser_open s) (trace s).
Definition set_headers h s :=
  mkState (visited_urls s) (discovered_urls s) h (queue_items s)
    (unfinished_tasks s) (tasks s) (orchestrator s) (open_contexts s)
    (open_pages s) (browser_open s) (trace s).
Definition set_queue q n s :=
  mkState (visited_urls s) (discovered_urls s) (response_headers s) q n
    (tasks s) (orchestrator s) (open_contexts s) (open_pages s)
    (browser_open s) (trace s).
Definition set_tasks t s :=
  mkState (visited_urls s) (discovered_urls s) (response_headers s)
    (queue_items s) (unfinished_tasks s) t (orchestrator s) (open_contexts s)
    (open_pages s) (browser_open s) (trace s).
Definition set_orchestrator m s :=
  mkState (visited_urls s) (discovered_urls s) (response_headers s)
    (queue_items s) (unfinished_tasks s) (tasks s) m (open_contexts s)
    (open_pages s) (browser_open s) (trace s).
Definition set_browser cs ps b s :=
  mkState (visited_urls s) (discovered_urls s) (response_headers s)
    (queue_items s) (unfinished_tasks s) (tasks s) (orchestrator s) cs ps b
    (trace s).
Definition emit e s :=
  mkState (visited_urls s) (discovered_urls s) (response_headers s)
    (queue_items s) (unfinished_tasks s) (tasks s) (orchestrator s)
    (open_contexts s) (open_pages s) (browser_open s) (e :: trace s).

Definition set_task (i : nat) (w : wstate) (s : State) : State :=
  set_tasks (<[i:=w]> (tasks s)) s.

(** [url_queue.put(item)], never blocking on the unbounded queue. *)
Definition put (page : option string) (item : option string) (s : State) : State :=
  emit (EvPut page item)
    (set_queue (queue_items s ++ [item]) (S (unfinished_tasks s)) s).

(** [url_queue.task_done()]. *)
Definition task_done (i : nat) (s : State) : State :=
  emit (EvTaskDone i) (set_queue (queue_items s) (pred (unfinished_tasks s)) s).

(** Removes one occurrence of [x]. *)
Fixpoint remove_one (x : string) (l : list string) : list string :=
  match l with
  | [] => []
  | y :: l' => if String.eqb x y then l' else y :: remove_one x l'
  end.

(** ** The functions of the source *)

Definition ignored_headers : list string :=
  ["content-length"; "age"; "date"; "etag"; "last-modified"; "expires";
   "keep-alive"].

Definition extensions_to_ignore : list string := [".js"; ".css"; ".json"].

(** [is_html_page]: no listed extension occurs anywhere in the URL text. *)
Definition is_html_page (url : string) : bool :=
  negb (existsb (fun ext => Str.contains ext url) extensions_to_ignore).

(** [handle_response]: one pass over [response.headers.items()]. *)
Definition handle_response (headers : list (string * string))
    (rh : gmap string string) : gmap string string :=
  foldl (fun m hv =>
           if bool_decide (Str.lower hv.1 ∈ ignored_headers) then m
           else <[hv.1 := hv.2]> m)
        rh headers.

(** The Header Map after the responses [rs], taken in order. *)
Definition record_all (rs : list (list (string * string)))
    : gmap string string :=
  foldl (λ m r, handle_response r m) ∅ rs.

(** [a or b] on attribute values, where [None] and [""] are falsy. *)
Definition attr_or (a b : option string) : option string :=
  match a with
  | Some x => if Str.truthy x then a else b
  | None => b
  end.

Definition number_of_workers : nat := 10.

(** The collaborators of a run: the two [urllib.parse] functions ([None]
    is a raised exception), the web as the browser renders it, the
    module-level [max_requests] ([None] unless [--max-requests] is given),
    and how the browser answers outside the [try] block of [crawl_page]:
    [opens url] tells whether [browser.new_context] and [context.new_page]
    return for the crawl of [url], [closes url] whether [page.close()]
    does.  An exception from one of these three calls is caught nowhere. *)
Class Env := {
  urlparse : string → option Urllib.ParseResult;
  urljoin : string → string → option string;
  web : string → page;
  max_requests : option Z;
  opens : string → bool;
  closes : string → bool
}.

Section crawler.

Context {env : Env}.

(** [max_requests and len(visited_urls) >= max_requests]: falsy for
    [None] and for [0]. *)
Definition budget_reached (visited : gset string) : bool :=
  match max_requests with
  | None => false
  | Some n => negb (n =? 0)%Z && (n <=? Z.of_nat (size visited))%Z
  end.

(** [not max_requests or len(visited_urls) < max_requests]. *)
Definition budget_left (visited : gset string) : bool :=
  match max_requests with
  | None => true
  | Some n => (n =? 0)%Z || (Z.of_nat (size visited) <? n)%Z
  end.

(** The body of the loop of [extract_links] for one element; [None] when
    it raises. *)
Definition extract_link (base_url : string) (visited : gset string)
    (e : element) (links : gset string) : option (gset string) :=
  match e with
  | Detached => None
  | Element href src =>
      match attr_or href src with
      | Some link =>
          if Str.truthy link then
            match urljoin base_url link with
            | Some abs_url =>
                Some (if bool_decide (abs_url ∈ visited) then links
                      else {[abs_url]} ∪ links)
            | None => None
            end
          else Some links
      | None => Some links
      end
  end.

(** The [for link in new_links] loop of [crawl_page], in the order the
    set is iterated.  An exception from [urlparse] ends the loop in the
    [except] clause. *)
Fixpoint enqueue_links (url : string) (new_links : list string) (s : State)
    : State :=
  match new_links with
  | [] => s
  | link :: rest =>
      match urlparse link, urlparse url with
      | Some parsed_url, Some parsed_base =>
          if String.eqb (Urllib.netloc parsed_url) (Urllib.netloc parsed_base)
          then
            if negb (bool_decide (link ∈ visited_urls s))
               && budget_left (visited_urls s)
            then
              let s1 := put (Some url) (Some link) s in
              let s2 := if is_html_page link
                        then set_discovered ({[link]} ∪ discovered_urls s1) s1
                        else s1 in
              enqueue_links url rest s2
            else enqueue_links url rest s
          else enqueue_links url rest s
      | _, _ => emit (EvErrCrawl url) s
      end
  end.

(** One segment of [worker] / [crawl_page] for task [i]: from where the
    task is suspended to its next [await].  [order] is the iteration
    order of [new_links].  The result is [None] when the task has no
    segment to run: it waits in [url_queue.get()] on an empty queue, it has
    ended, or the call it is suspended in raises outside the [try] block
    ([new_context], [new_page]) or inside [finally] ([page.close()]).  In
    that last case the exception leaves [crawl_page] and [worker]: the task
    is over where it stands, its item is never marked done, and nothing of
    it runs again.  (A context made before a raising [new_page] is not
    tracked.) *)
Definition worker_step (i : nat) (order : list string) (s : State)
    : option State :=
  match tasks s !! i with
  | Some Idle =>
      match queue_items s with
      | [] => None
      | item :: q =>
          let s := emit (EvGet i item) (set_queue q (unfinished_tasks s) s) in
          match item with
          | None => Some (set_task i Finished (task_done i s))
          | Some url =>
              if bool_decide (url ∈ visited_urls s)
                 || budget_reached (visited_urls s)
              then Some (task_done i s)
              else
                Some (set_task i (Opening url)
                        (emit (EvCrawling url)
                           (set_visited ({[url]} ∪ visited_urls s) s)))
          end
      end
  | Some (Opening url) =>
      if opens url then
        Some (set_task i (Loading url (responses (web url)))
                (set_browser (url :: open_contexts s) (url :: open_pages s)
                   (browser_open s) s))
      else None
  | Some (Loading url (r :: rs)) =>
      Some (set_task i (Loading url rs)
              (set_headers (handle_response r (response_headers s)) s))
  | Some (Loading url []) =>
      match outcome (web url) with
      | NavError => Some (set_task i (Closing url) (emit (EvErrCrawl url) s))
      | QueryError =>
          Some (set_task i (Closing url) (emit (EvErrExtract url) s))
      | Rendered es => Some (set_task i (Extracting url es ∅) s)
      end
  | Some (Extracting url (e :: es) links) =>
      match extract_link url (visited_urls s) e links with
      | Some links' => Some (set_task i (Extracting url es links') s)
      | None =>
          Some (set_task i (Extracting url [] links)
                  (emit (EvErrExtract url) s))
      end
  | Some (Extracting url [] links) =>
      if bool_decide (order ≡ₚ elements links)
      then Some (set_task i (Closing url) (enqueue_links url order s))
      else None
  | Some (Closing url) =>
      if closes url then
        Some (set_task i Idle
                (task_done i
                   (set_browser (open_contexts s)
                      (remove_one url (open_pages s)) (browser_open s) s)))
      else None
  | Some Cancelling => Some (set_task i Cancelled s)
  | Some Finished | Some Cancelled | None => None
  end.

(** [task.cancel()]: a no-op on a task that has ended; otherwise the
    task is woken with [CancelledError] the next time the event loop runs
    it.  When [join] returns every worker waits in [url_queue.get()],
    where the exception ends the task and touches none of the shared
    objects. *)
Definition cancel_task (w : wstate) : wstate :=
  match w with
  | Finished => Finished
  | Cancelled => Cancelled
  | _ => Cancelling
  end.

Definition cancelling (w : wstate) : bool :=
  match w with Cancelling => true | _ => false end.

(** One segment of [main]: from the return of [url_queue.join()], over
    the ten [task.cancel()] calls, into [await browser.close()]; then from
    the return of [browser.close()], which closes every context and page,
    to the return of [main].  [main] never awaits the worker tasks.  The
    wake-ups that [cancel()] scheduled are in the event loop's queue before
    [main] suspends in [browser.close()], so the loop has run them when
    [browser.close()] returns. *)
Definition main_step (s : State) : option State :=
  match orchestrator s with
  | Joining =>
      if (unfinished_tasks s =? 0)%nat then
        Some (set_orchestrator ClosingBrowser
                (set_tasks (cancel_task <$> tasks s)
                   (foldl (fun s i => emit (EvCancel i) s) s
                      (seq 0 (length (tasks s))))))
      else None
  | ClosingBrowser =>
      if existsb cancelling (tasks s) then None
      else
        Some (set_orchestrator Returned
                (emit EvCloseBrowser (set_browser [] [] false s)))
  | Returned => None
  end.

Inductive choice :=
  | Task (i : nat) (order : list string)
  | Orchestrator.

Definition step (c : choice) (s : State) : option State :=
  match c with
  | Task i order => worker_step i order s
  | Orchestrator => main_step s
  end.

(** Runs a schedule; [None] when it asks for a segment that cannot run. *)
Fixpoint run (cs : list choice) (s : State) : option State :=
  match cs with
  | [] => Some s
  | c :: cs' =>
      match step c s with
      | Some s' => run cs' s'
      | None => None
      end
  end.

(** [main] up to its first [await url_queue.join()]: the browser is
    launched, the seed is queued and the workers are created. *)
Definition start (start_url : string) : State :=
  put None (Some start_url)
    (mkState ∅ ∅ ∅ [] 0 (replicate number_of_workers Idle) Joining [] []
       true []).

(** What [main] returns. *)
Definition result (s : State) : gset string * gmap string string :=
  (discovered_urls s, response_headers s).

(** ** Notions used in the statements *)

(** States some schedule leads to. *)
Definition reachable (start_url : string) (s : State) : Prop :=
  ∃ cs, run cs (start start_url) = Some s.

(** The links [extract_links] reads off a rendered page, in document
    order, up to the first element that makes it raise (the test against
    [visited_urls] left out). *)
Fixpoint hrefs (base_url : string) (es : list element) : list string :=
  match es with
  | [] => []
  | Detached :: _ => []
  | Element href src :: es' =>
      match attr_or href src with
      | Some link =>
          if Str.truthy link then
            match urljoin base_url link with
            | Some abs_url => abs_url :: hrefs base_url es'
            | None => []
            end
          else hrefs base_url es'
      | None => hrefs base_url es'
      end
  end.

Definition page_links (url : string) : list string :=
  match outcome (web url) with
  | Rendered es => hrefs url es
  | _ => []
  end.

(** The test [urlparse(link).netloc == urlparse(url).netloc]. *)
Definition same_netloc (url link : string) : bool :=
  match urlparse link, urlparse url with
  | Some parsed_url, Some parsed_base =>
      String.eqb (Urllib.netloc parsed_url) (Urllib.netloc parsed_base)
  | _, _ => false
  end.

(** [link] is on the page of [url] and passes the netloc test. *)
Definition edge (url link : string) : Prop :=
  link ∈ page_links url ∧ same_netloc url link = true.

(** The links the loop of [crawl_page] puts on the queue when it starts
    with [visited] (which the loop does not change), and whether it ends
    in the [except] clause. *)
Fixpoint accepted (url : string) (visited : gset string)
    (new_links : list string) : list string * bool :=
  match new_links with
  | [] => ([], false)
  | link :: rest =>
      match urlparse link, urlparse url with
      | Some parsed_url, Some parsed_base =>
          let r := accepted url visited rest in
          if String.eqb (Urllib.netloc parsed_url) (Urllib.netloc parsed_base)
             && (negb (bool_decide (link ∈ visited)) && budget_left visited)
          then (link :: r.1, r.2) else r
      | _, _ => ([], true)
      end
  end.

(** The state after that loop has put [added]. *)
Definition enqueued (url : string) (added : list string) (err : bool)
    (s : State) : State :=
  mkState (visited_urls s)
    (list_to_set (filter (λ v, is_html_page v = true) added)
       ∪ discovered_urls s)
    (response_headers s)
    (queue_items s ++ (Some <$> added))
    (length added + unfinished_tasks s)
    (tasks s) (orchestrator s) (open_contexts s) (open_pages s)
    (browser_open s)
    ((if err then [EvErrCrawl url] else [])
       ++ reverse ((λ v, EvPut (Some url) (Some v)) <$> added) ++ trace s).

(** [url_queue.get()] returning the head item to task [i]. *)
Definition dequeue (i : nat) (item : option string) (q : list (option string))
    (s : State) : State :=
  emit (EvGet i item) (set_queue q (unfinished_tasks s) s).

(** The cases of [step], one constructor for each way a segment can run;
    [step_segment] below shows that these are all of them. *)
Inductive segment : choice → State → State → Prop :=
  | seg_sentinel i order s q :
      tasks s !! i = Some Idle → queue_items s = None :: q →
      segment (Task i order) s
        (set_task i Finished (task_done i (dequeue i None q s)))
  | seg_skip i order s url q :
      tasks s !! i = Some Idle → queue_items s = Some url :: q →
      url ∈ visited_urls s ∨ budget_reached (visited_urls s) = true →
      segment (Task i order) s (task_done i (dequeue i (Some url) q s))
  | seg_begin i order s url q :
      tasks s !! i = Some Idle → queue_items s = Some url :: q →
      url ∉ visited_urls s → budget_reached (visited_urls s) = false →
      segment (Task i order) s
        (set_task i (Opening url)
           (emit (EvCrawling url)
              (set_visited ({[url]} ∪ visited_urls s)
                 (dequeue i (Some url) q s))))
  | seg_open i order s url :
      tasks s !! i = Some (Opening url) → opens url = true →
      segment (Task i order) s
        (set_task i (Loading url (responses (web url)))
           (set_browser (url :: open_contexts s) (url :: open_pages s)
              (browser_open s) s))
  | seg_response i order s url r rs :
      tasks s !! i = Some (Loading url (r :: rs)) →
      segment (Task i order) s
        (set_task i (Loading url rs)
           (set_headers (handle_response r (response_headers s)) s))
  | seg_nav_error i order s url :
      tasks s !! i = Some (Loading url []) → outcome (web url) = NavError →
      segment (Task i order) s
        (set_task i (Closing url) (emit (EvErrCrawl url) s))
  | seg_query_error i order s url :
      tasks s !! i = Some (Loading url []) → outcome (web url) = QueryError →
      segment (Task i order) s
        (set_task i (Closing url) (emit (EvErrExtract url) s))
  | seg_rendered i order s url es :
      tasks s !! i = Some (Loading url []) →
      outcome (web url) = Rendered es →
      segment (Task i order) s (set_task i (Extracting url es ∅) s)
  | seg_element i order s url e es links links' :
      tasks s !! i = Some (Extracting url (e :: es) links) →
      extract_link url (visited_urls s) e links = Some links' →
      segment (Task i order) s (set_task i (Extracting url es links') s)
  | seg_element_error i order s url e es links :
      tasks s !! i = Some (Extracting url (e :: es) links) →
      extract_link url (visited_urls s) e links = None →
      segment (Task i order) s
        (set_task i (Extracting url [] links) (emit (EvErrExtract url) s))
  | seg_links i order s url links :
      tasks s !! i = Some (Extracting url [] links) →
      order ≡ₚ elements links →
      segment (Task i order) s
        (set_task i (Closing url)
           (enqueued url (accepted url (visited_urls s) order).1
              (accepted url (visited_urls s) order).2 s))
  | seg_close i order s url :
      tasks s !! i = Some (Closing url) → closes url = true →
      segment (Task i order) s
        (set_task i Idle
           (task_done i
              (set_browser (open_contexts s) (remove_one url (open_pages s))
                 (browser_open s) s)))
  | seg_join s :
      orchestrator s = Joining → unfinished_tasks s = 0 →
      segment Orchestrator s
        (set_orchestrator ClosingBrowser
           (set_tasks (cancel_task <$> tasks s)
              (foldl (fun s i => emit (EvCancel i) s) s
                 (seq 0 (length (tasks s))))))
  | seg_cancelled i order s :
      tasks s !! i = Some Cancelling →
      segment (Task i order) s (set_task i Cancelled s)
  | seg_close_browser s :
      orchestrator s = ClosingBrowser →
      existsb cancelling (tasks s) = false →
      segment Orchestrator s
        (set_orchestrator Returned
           (emit EvCloseBrowser (set_browser [] [] false s))).

(** URLs of the "Crawling" lines, newest first. *)
Fixpoint crawl_starts (tr : list event) : list string :=
  match tr with
  | [] => []
  | EvCrawling u :: tr' => u :: crawl_starts tr'
  | _ :: tr' => crawl_starts tr'
  end.

(** The [url_queue.put] calls of a trace, newest first: the page being
    crawled ([None] for the put in [main]) and the item. *)
Fixpoint puts (tr : list event) : list (option string * option string) :=
  match tr with
  | [] => []
  | EvPut p item :: tr' => (p, item) :: puts tr'
  | _ :: tr' => puts tr'
  end.

(** The tasks of the [url_queue.task_done()] calls, newest first. *)
Fixpoint task_dones (tr : list event) : list nat :=
  match tr with
  | [] => []
  | EvTaskDone i :: tr' => i :: task_dones tr'
  | _ :: tr' => task_dones tr'
  end.

(** A task that holds a dequeued item it has not marked done. *)
Definition busy (w : wstate) : bool :=
  match w with
  | Opening _ | Loading _ _ | Extracting _ _ _ | Closing _ => true
  | _ => false
  end.

(** A task that holds an open page. *)
Definition page_of (w : wstate) : option string :=
  match w with
  | Loading u _ | Extracting u _ _ | Closing u => Some u
  | _ => None
  end.

Definition task_url (w : wstate) : option string :=
  match w with
  | Opening u | Loading u _ | Extracting u _ _ | Closing u => Some u
  | _ => None
  end.

(** Segments a task still has to run before it is back in
    [url_queue.get()], counting one more for each item it may yet put. *)
Definition after_load (url : string) : nat :=
  match outcome (web url) with
  | Rendered es => 2 * length es + 2
  | _ => 1
  end.

Definition pot (w : wstate) : nat :=
  match w with
  | Opening u => 2 + length (responses (web u)) + after_load u
  | Loading u rs => 1 + length rs + after_load u
  | Extracting u es links => 2 * length es + size links + 2
  | Closing _ => 1
  | Cancelling => 1
  | _ => 0
  end.

Definition cost (url : string) : nat := pot (Opening url).

Definition pot_orchestrator (m : mstate) : nat :=
  match m with
  | Joining => number_of_workers + 2
  | ClosingBrowser => 1
  | Returned => 0
  end.

(** A bound on the number of segments still to run, given a list [U] of
    the URLs that can be crawled. *)
Definition measure (U : list string) (s : State) : nat :=
  sum_list (cost <$> filter (λ u, u ∉ visited_urls s) U)
  + length (queue_items s)
  + sum_list (pot <$> tasks s)
  + pot_orchestrator (orchestrator s).

(** Every run from [s0] ends, and it ends with [main] returned in a
    state satisfying [P]: schedules have bounded length, a state where
    [main] has not returned can always take a step. *)
Definition terminates (s0 : State) (P : State → Prop) : Prop :=
  ∃ bound, ∀ cs s, run cs s0 = Some s →
    (length cs ≤ bound)%nat ∧
    (orchestrator s = Returned → P s) ∧
    (orchestrator s ≠ Returned → ∃ c, is_Some (step c s)).

(** [urlparse(url).scheme], when [urlparse] returns. *)
Definition scheme_of (url : string) : option string :=
  Urllib.scheme <$> urlparse url.

(** The path of [url] ends in one of the listed extensions. *)
Definition asset_path (url : string) : bool :=
  match urlparse url with
  | Some parsed => existsb (Str.endswith (Urllib.path parsed)) extensions_to_ignore
  | None => false
  end.

(** Number of sentinels ([None]) put on the queue. *)
Definition sentinels_put (tr : list event) : nat :=
  length (filter (λ p, p.2 = None) (puts tr)).

(** Number of events of [tr] equal to [e]. *)
Definition occurrences (e : event) (tr : list event) : nat :=
  length (filter (λ x, x = e) tr).

(** The browser raises neither when it opens the context and the page
    for [u] nor when it closes that page. *)
Definition reliable (u : string) : Prop := opens u = true ∧ closes u = true.

(** Checks, by evaluation, of the conditions on a site: the same-netloc
    links of the pages of [U] stay in [U]; all their links parse; [rank]
    falls along every same-netloc link. *)
Definition links_within (U : list string) : bool :=
  forallb (λ u,
    forallb (λ v, implb (same_netloc u v) (bool_decide (v ∈ U)))
      (page_links u)) U.

Definition links_parse_check (U : list string) : bool :=
  forallb (λ u,
    forallb (λ w, bool_decide (is_Some (urlparse w))) (page_links u)) U.

Definition ranked (rank : string → nat) (U : list string) : bool :=
  forallb (λ u,
    forallb (λ v, implb (same_netloc u v) (rank v <? rank u))
      (page_links u)) U.

(** [v] is linked from the seed over at most [n] same-netloc links. *)
Inductive within (start_url : string) : nat → string → Prop :=
  | within_seed n : within start_url n start_url
  | within_link n u v :
      within start_url n u → edge u v → within start_url (S n) v.

(** The URLs linked from the seed over at most [n] same-netloc links. *)
Fixpoint ball (start_url : string) (n : nat) : list string :=
  match n with
  | 0 => [start_url]
  | S k =>
      ball start_url k
      ++ (ball start_url k ≫=
            λ u, filter (λ v, same_netloc u v = true) (page_links u))
  end.

(** ** Invariants of reachable states *)

Definition busy1 (w : wstate) : nat := if busy w then 1 else 0.

(** The queue's tally counts the queued items and the items held by busy
    tasks; no sentinel is ever queued; once [join] has returned every task
    has been asked to stop or has ended, and when [main] returns every task
    has ended. *)
Record ctl_ok (s : State) : Prop := {
  ctl_tasks : length (tasks s) = number_of_workers;
  ctl_items : Forall is_Some (queue_items s);
  ctl_puts : ∀ p, EvPut p None ∉ trace s;
  ctl_joining :
    orchestrator s = Joining →
    unfinished_tasks s = length (queue_items s) + sum_list (busy1 <$> tasks s)
    ∧ Forall (λ w, w = Idle ∨ busy w = true) (tasks s)
    ∧ browser_open s = true;
  ctl_joined :
    orchestrator s ≠ Joining →
    unfinished_tasks s = 0 ∧ queue_items s = []
    ∧ Forall (λ w, w = Cancelled ∨ w = Cancelling) (tasks s)
    ∧ ∀ i, i < number_of_workers → EvCancel i ∈ trace s;
  ctl_returned :
    orchestrator s = Returned → Forall (λ w, w = Cancelled) (tasks s)
}.

(** Every crawl start inserts a fresh URL into [visited_urls]; tasks,
    contexts and pages only exist for visited URLs, two tasks never work on
    the same URL, and a positive budget bounds the set. *)
Record visit_ok (s : State) : Prop := {
  vis_nodup : NoDup (crawl_starts (trace s));
  vis_trace : ∀ u, u ∈ visited_urls s ↔ u ∈ crawl_starts (trace s);
  vis_tasks :
    ∀ i w u, tasks s !! i = Some w → task_url w = Some u → u ∈ visited_urls s;
  vis_distinct :
    ∀ i j w w' u, tasks s !! i = Some w → tasks s !! j = Some w' →
      task_url w = Some u → task_url w' = Some u → i = j;
  vis_browser :
    ∀ u, u ∈ open_contexts s ∨ u ∈ open_pages s → u ∈ visited_urls s;
  vis_budget :
    ∀ n, max_requests = Some n → (0 < n)%Z →
      (Z.of_nat (size (visited_urls s)) ≤ n)%Z
}.

(** The open pages are those of the tasks between [new_page] and
    [page.close()]; a context, once created, stays open as long as the
    browser does. *)
Record browser_ok (s : State) : Prop := {
  br_nodup : NoDup (open_pages s);
  br_pages :
    ∀ u, u ∈ open_pages s ↔ ∃ i w, tasks s !! i = Some w ∧ page_of w = Some u;
  br_contexts :
    browser_open s = true →
    ∀ u, u ∈ visited_urls s →
      (∃ i, tasks s !! i = Some (Opening u)) ∨ u ∈ open_contexts s
}.

(** Where queued, visited and discovered URLs come from.  The seed is the
    only item [main] puts; every other put is made for a link found on a
    visited page that passes the netloc test. *)
Record links_ok (start_url : string) (s : State) : Prop := {
  lk_seed_put :
    ∀ item, (None, item) ∈ puts (trace s) → item = Some start_url;
  lk_puts :
    ∀ u v, (Some u, Some v) ∈ puts (trace s) →
      u ∈ visited_urls s ∧ edge u v ∧ v ≠ start_url;
  lk_discovered :
    ∀ v, v ∈ discovered_urls s ↔
      is_html_page v = true ∧ ∃ u, (Some u, Some v) ∈ puts (trace s);
  lk_queue :
    ∀ v, Some v ∈ queue_items s →
      v = start_url ∨ ∃ u, (Some u, Some v) ∈ puts (trace s);
  lk_visited :
    ∀ v, v ∈ visited_urls s →
      v = start_url ∨ ∃ u, (Some u, Some v) ∈ puts (trace s);
  lk_first : start_url ∈ visited_urls s ∨ visited_urls s = ∅;
  lk_extracting :
    ∀ i u es links, tasks s !! i = Some (Extracting u es links) →
      (∀ v, v ∈ links ∨ v ∈ hrefs u es → v ∈ page_links u) ∧
      (∀ v, v ∈ page_links u →
         v ∈ links ∨ v ∈ visited_urls s ∨ v ∈ hrefs u es)
}.

(** Every key of [response_headers] was delivered, under that very name
    and with that value, by a response of a visited page, and passes the
    ignore test. *)
Record headers_ok (s : State) : Prop := {
  hd_loading :
    ∀ i u rs, tasks s !! i = Some (Loading u rs) →
      ∀ r, r ∈ rs → r ∈ responses (web u);
  hd_keys :
    ∀ k x, response_headers s !! k = Some x →
      (Str.lower k ∉ ignored_headers) ∧
      ∃ u r, u ∈ visited_urls s ∧ r ∈ responses (web u) ∧ (k, x) ∈ r
}.

(** [U] lists every URL a crawl from [start_url] can reach. *)
Definition closed_under_links (U : list string) (start_url : string) : Prop :=
  start_url ∈ U ∧ ∀ u v, u ∈ U → edge u v → v ∈ U.

(** Visited and queued URLs satisfy [P]. *)
Record universe_ok (P : string → Prop) (s : State) : Prop := {
  un_visited : ∀ v, v ∈ visited_urls s → P v;
  un_queue : ∀ v, Some v ∈ queue_items s → P v
}.

(** No task of [ts] is still reading the page of [u]. *)
Definition settled (ts : list wstate) (u : string) : Prop :=
  ∀ i w, ts !! i = Some w → task_url w = Some u → w = Closing u.

(** Without a budget, the links of a page whose crawl is over are visited
    or queued. *)
Record frontier_ok (start_url : string) (s : State) : Prop := {
  fr_seed : start_url ∈ visited_urls s ∨ Some start_url ∈ queue_items s;
  fr_links :
    ∀ u v, u ∈ visited_urls s → settled (tasks s) u → edge u v →
      v ∈ visited_urls s ∨ Some v ∈ queue_items s
}.

(** Every link found on a page of [U] can be parsed. *)
Definition links_parse (U : list string) : Prop :=
  ∀ u w, u ∈ U → w ∈ page_links u → is_Some (urlparse w).

End crawler.

(** The state in which task [i] has taken the seed off the queue and is
    about to open its context and page. *)
Definition seed_taken (i : nat) (start_url : string) : State :=
  set_task i (Opening start_url)
    (emit (EvCrawling start_url)
       (set_visited ({[start_url]} ∪ ∅)
          (dequeue i (Some start_url) [] (start start_url)))).

(** ** The script around [main] *)

(** [sys.argv[sys.argv.index(flag) + 1]]: [None] when [flag] is absent,
    [Some None] when nothing follows it ([IndexError]). *)
Fixpoint after_flag (flag : string) (argv : list string)
    : option (option string) :=
  match argv with
  | [] => None
  | a :: rest =>
      if String.eqb a flag then Some (head rest) else after_flag flag rest
  end.

Inductive invocation :=
  | UsageError                          (* fewer than two arguments *)
  | MaxRequestsError                    (* "Error: Invalid value for --max-requests" *)
  | OutputFileError                     (* "Error: Missing value for --output-file" *)
  | Crawl (start_url : string) (budget : option Z) (output_file : option string).

(** The argument handling of the [__main__] block.  [int] is Python's
    builtin ([None] is [ValueError]); which texts it accepts depends on
    Unicode digits and blanks, on underscores and on the interpreter's limit
    on the number of digits, so the script is modelled for any [int]. *)
Definition script_with (int : string → option Z) (argv : list string)
    : invocation :=
  match argv with
  | _ :: start_url :: _ =>
      let with_budget budget :=
        match after_flag "--output-file" argv with
        | None => Crawl start_url budget None
        | Some None => OutputFileError
        | Some (Some file) => Crawl start_url budget (Some file)
        end in
      match after_flag "--max-requests" argv with
      | None => with_budget None
      | Some None => MaxRequestsError
      | Some (Some text) =>
          match int text with
          | Some n => with_budget (Some n)
          | None => MaxRequestsError
          end
      end
  | _ => UsageError
  end.

Fixpoint digits_value (acc : Z) (t : string) : option Z :=
  match t with
  | EmptyString => Some acc
  | String c t' =>
      if Urllib.is_digit c
      then digits_value (10 * acc + Z.of_nat (nat_of_ascii c - 48)) t'
      else None
  end.

(** CPython's default limit on the digits of a numeral [int] converts. *)
Definition max_str_digits : nat := 4300.

(** [int(text)] on the texts every CPython 3 reads alike: ASCII decimal
    numerals of at most [max_str_digits] digits with an optional sign.  On
    other texts the result [None] is not always what [int] does (it accepts
    surrounding blanks, underscores between digits and other Unicode digits,
    and longer numerals where no limit is set), so this function serves on
    concrete command lines only. *)
Definition python_int (t : string) : option Z :=
  let digits ds :=
    if (max_str_digits <? String.length ds)%nat then None
    else digits_value 0 ds in
  match t with
  | EmptyString => None
  | String "-" (String _ _ as ds) => Z.opp <$> digits ds
  | String "+" (String _ _ as ds) => digits ds
  | _ => digits t
  end.

(** The script on a concrete command line. *)
Definition script (argv : list string) : invocation :=
  script_with python_int argv.

(** The exit status of the script once [main] has returned, or once the
    arguments are refused: [sys.exit(1)] on the three errors; after a crawl
    the results are written to the output file or printed, and an exception
    there ([open] fails, say) ends the script with status 1.  [delivered]
    tells whether the output was written. *)
Definition exit_status (inv : invocation) (delivered : bool) : Z :=
  match inv with
  | Crawl _ _ _ => if delivered then 0 else 1
  | _ => 1
  end.

(** The exit status when the output is delivered. *)
Definition exit_code (inv : invocation) : Z := exit_status inv true.

(** The decimal numeral of [n], as [str(n)] writes it. *)
Definition decimal (n : Z) : string := NilZero.string_of_int (Z.to_int n).

(** ** Example sites and schedules *)

Definition seed_x : string := "https://x.test/".
Definition url_a : string := "http://x.test/a".
Definition url_jsp : string := "https://x.test/a.jsp".
Definition url_js : string := "https://x.test/b.js".
Definition url_other : string := "https://other.test/c".

(** No page loads, no response arrives. *)
Definition web_down (u : string) : page := mkPage [] NavError.

(** The seed page answers with two headers and holds four links; no other
    page loads. *)
Definition web_mixed (u : string) : page :=
  if String.eqb u seed_x then
    mkPage [[("Server", "nginx"); ("Date", "today")]]
      (Rendered [Element (Some url_a) None; Element (Some url_jsp) None;
                 Element None (Some url_js); Element (Some url_other) None])
  else mkPage [] NavError.

Definition url_p : string := "https://x.test/p".
Definition url_q : string := "https://x.test/q".
Definition url_r : string := "https://x.test/r".

(** The seed links to [p] and [q], which both link to [r]. *)
Definition web_diamond (u : string) : page :=
  if String.eqb u seed_x then
    mkPage [] (Rendered [Element (Some url_p) None; Element (Some url_q) None])
  else if String.eqb u url_p || String.eqb u url_q then
    mkPage [] (Rendered [Element (Some url_r) None])
  else mkPage [] (Rendered []).

Definition env_down : Env :=
  Build_Env Urllib.urlparse Urllib.urljoin_absolute web_down None
    (λ _, true) (λ _, true).
Definition env_mixed : Env :=
  Build_Env Urllib.urlparse Urllib.urljoin_absolute web_mixed None
    (λ _, true) (λ _, true).
Definition env_mixed_zero : Env :=
  Build_Env Urllib.urlparse Urllib.urljoin_absolute web_mixed (Some 0%Z)
    (λ _, true) (λ _, true).
Definition env_diamond : Env :=
  Build_Env Urllib.urlparse Urllib.urljoin_absolute web_diamond None
    (λ _, true) (λ _, true).

(** Task [i] takes an item whose page does not load and marks it done. *)
Definition failed_crawl (i : nat) : list choice := replicate 4 (Task i []).

(** [join] returns and [main] cancels the workers; each of them ends;
    [browser.close()] returns and [main] with it. *)
Definition finish : list choice :=
  [Orchestrator] ++ ((λ i, Task i []) <$> seq 0 number_of_workers)
  ++ [Orchestrator].

(** One task crawls the seed, which fails; then [main] finishes. *)
Definition sched_down : list choice := failed_crawl 0 ++ finish.

(** Task 0 crawls the seed of [web_mixed] and the three links it queues. *)
Definition sched_mixed : list choice :=
  replicate 8 (Task 0 []) ++ [Task 0 [url_a; url_jsp; url_js; url_other]; Task 0 []]
  ++ failed_crawl 0 ++ failed_crawl 0 ++ failed_crawl 0 ++ finish.

(** Task 0 crawls the seed of [web_diamond]; tasks 1 and 2 read [p] and [q]
    side by side, and task 1 queues [r]. *)
Definition sched_first_put : list choice :=
  replicate 5 (Task 0 []) ++ [Task 0 [url_p; url_q]; Task 0 []]
  ++ replicate 4 (Task 1 []) ++ replicate 4 (Task 2 []) ++ [Task 1 [url_r]].

(** Task 2 queues [r] too. *)
Definition sched_second_put : list choice :=
  sched_first_put ++ [Task 2 [url_r]].

(** Tasks 1 and 2 close their pages and task 3 crawls [r]. *)
Definition sched_crawled : list choice :=
  sched_second_put ++ [Task 1 []; Task 2 []] ++ replicate 5 (Task 3 []).

(** Task 4 takes the second copy of [r]; then [main] finishes. *)
Definition sched_diamond : list choice :=
  sched_crawled ++ [Task 4 []] ++ finish.

(** The seed page holds one link, to a page whose name ends in [.jsp]. *)
Definition web_jsp (u : string) : page :=
  if String.eqb u seed_x then mkPage [] (Rendered [Element (Some url_jsp) None])
  else mkPage [] (Rendered []).

Definition env_jsp : Env :=
  Build_Env Urllib.urlparse Urllib.urljoin_absolute web_jsp None
    (λ _, true) (λ _, true).

Definition sched_jsp : list choice :=
  replicate 4 (Task 0 []) ++ [Task 0 [url_jsp]; Task 0 []]
  ++ replicate 5 (Task 0 []) ++ finish.

(** A rank that falls along the links of [web_diamond] and [web_jsp]. *)
Definition rank_x (u : string) : nat :=
  if String.eqb u seed_x then 2
  else if String.eqb u url_p || String.eqb u url_q then 1
  else 0.

Definition after_down : State :=
  default (@start seed_x) (@run env_down sched_down (@start seed_x)).
Definition after_seed_down : State :=
  default (@start seed_x) (@run env_down (failed_crawl 0) (@start seed_x)).
Definition after_mixed : State :=
  default (@start seed_x) (@run env_mixed sched_mixed (@start seed_x)).
Definition after_mixed_zero : State :=
  default (@start seed_x) (@run env_mixed_zero sched_mixed (@start seed_x)).
Definition after_diamond : State :=
  default (@start seed_x) (@run env_diamond sched_diamond (@start seed_x)).
Definition first_put : State :=
  default (@start seed_x) (@run env_diamond sched_first_put (@start seed_x)).
Definition second_put : State :=
  default (@start seed_x) (@run env_diamond sched_second_put (@start seed_x)).
Definition crawled_once : State :=
  default (@start seed_x) (@run env_diamond sched_crawled (@start seed_x)).
Definition after_jsp : State :=
  default (@start seed_x) (@run env_jsp sched_jsp (@start seed_x)).

(** The seed and [p] link to each other. *)
Definition web_cycle (u : string) : page :=
  if String.eqb u seed_x then mkPage [] (Rendered [Element (Some url_p) None])
  else if String.eqb u url_p then
    mkPage [] (Rendered [Element (Some seed_x) None])
  else mkPage [] NavError.

Definition env_cycle : Env :=
  Build_Env Urllib.urlparse Urllib.urljoin_absolute web_cycle None
    (λ _, true) (λ _, true).

(** Task 0 crawls the seed, then [p], whose link back to the seed is
    dropped by [extract_links]. *)
Definition sched_cycle : list choice :=
  replicate 4 (Task 0 []) ++ [Task 0 [url_p]; Task 0 []]
  ++ replicate 4 (Task 0 []) ++ [Task 0 []; Task 0 []] ++ finish.

Definition env_mixed_two : Env :=
  Build_Env Urllib.urlparse Urllib.urljoin_absolute web_mixed (Some 2%Z)
    (λ _, true) (λ _, true).

(** With a budget of two: the seed and [a] are crawled, the two other
    queued links are dropped. *)
Definition sched_mixed_two : list choice :=
  replicate 8 (Task 0 []) ++ [Task 0 [url_a; url_jsp; url_js; url_other]; Task 0 []]
  ++ failed_crawl 0 ++ [Task 0 []; Task 0 []] ++ finish.

Definition env_mixed_negative : Env :=
  Build_Env Urllib.urlparse Urllib.urljoin_absolute web_mixed (Some (-1)%Z)
    (λ _, true) (λ _, true).

(** The seed is taken off the queue and dropped. *)
Definition sched_dropped : list choice := [Task 0 []] ++ finish.

(** The seed page of [web_mixed] has been read to its last element. *)
Definition sched_extracted : list choice := replicate 8 (Task 0 []).

Definition after_cycle : State :=
  default (@start seed_x) (@run env_cycle sched_cycle (@start seed_x)).
Definition after_mixed_two : State :=
  default (@start seed_x) (@run env_mixed_two sched_mixed_two (@start seed_x)).
Definition budget_spent : State :=
  default (@start seed_x)
    (@run env_mixed_two (take 14 sched_mixed_two) (@start seed_x)).
Definition after_dropped : State :=
  default (@start seed_x) (@run env_mixed_negative sched_dropped (@start seed_x)).
Definition extracted : State :=
  default (@start seed_x) (@run env_mixed sched_extracted (@start seed_x)).

(** The seed answers with one response, then its load fails. *)
Definition web_late (u : string) : page :=
  mkPage [[("Server", "nginx")]] NavError.

Definition env_late : Env :=
  Build_Env Urllib.urlparse Urllib.urljoin_absolute web_late None
    (λ _, true) (λ _, true).

Definition sched_late : list choice := replicate 5 (Task 0 []) ++ finish.

Definition after_late : State :=
  default (@start seed_x) (@run env_late sched_late (@start seed_x)).

(** A link whose text holds a tab: [urlparse] drops the tab, so the path
    of this URL is [/a.js]. *)
Definition url_tab : string :=
  String.append "http://x.test/a.j" (String (ascii_of_nat 9) "s").

Definition web_tab (u : string) : page :=
  if String.eqb u seed_x then mkPage [] (Rendered [Element (Some url_tab) None])
  else mkPage [] NavError.

Definition env_tab : Env :=
  Build_Env Urllib.urlparse Urllib.urljoin_absolute web_tab None
    (λ _, true) (λ _, true).

Definition sched_tab : list choice :=
  replicate 4 (Task 0 []) ++ [Task 0 [url_tab]; Task 0 []]
  ++ failed_crawl 0 ++ finish.

Definition after_tab : State :=
  default (@start seed_x) (@run env_tab sched_tab (@start seed_x)).

(** The site of [web_mixed] behind a browser whose [new_context] raises. *)
Definition env_unopened : Env :=
  Build_Env Urllib.urlparse Urllib.urljoin_absolute web_mixed None
    (λ _, false) (λ _, true).

(** Task 3 takes the seed and starts its crawl. *)
Definition hung : State :=
  default (@start seed_x) (@run env_unopened [Task 3 []] (@start seed_x)).

(** Every page links to one more page: a site without end. *)
Definition web_chain (u : string) : page :=
  mkPage [] (Rendered [Element (Some (String.append u "a")) None]).

Definition env_chain : Env :=
  Build_Env Urllib.urlparse Urllib.urljoin_absolute web_chain (Some 2%Z)
    (λ _, true) (λ _, true).

(** ** Proofs *)

Lemma sum_list_insert {A} (f : A → nat) (l : list A) (i : nat) (x y : A) :
  l !! i = Some x →
  sum_list (f <$> <[i:=y]> l) + f x = sum_list (f <$> l) + f y.
Proof.
  revert i. induction l as [|a l IH]; intros [|i] Hi; simplify_eq/=; [lia|].
  specialize (IH _ Hi). lia.
Qed.

Lemma sum_list_filter_mono (c : string → nat) (V W : gset string)
    (U : list string) :
  V ⊆ W →
  (sum_list (c <$> filter (λ x, x ∉ W) U)
   ≤ sum_list (c <$> filter (λ x, x ∉ V) U))%nat.
Proof.
  intros HVW. induction U as [|b U IH]; [done|]. rewrite !filter_cons.
  destruct (decide (b ∉ W)) as [HW|HW].
  - rewrite decide_True; [csimpl; lia|]. intros ?. apply HW. by apply HVW.
  - destruct (decide (b ∉ V)); csimpl; lia.
Qed.

Lemma sum_list_filter_drop (c : string → nat) (V : gset string) (u : string)
    (U : list string) :
  u ∈ U → u ∉ V →
  (sum_list (c <$> filter (λ x, x ∉ {[u]} ∪ V) U) + c u
   ≤ sum_list (c <$> filter (λ x, x ∉ V) U))%nat.
Proof.
  intros Hin HV. induction U as [|a U IH]; [by apply elem_of_nil in Hin|].
  rewrite !filter_cons.
  destruct (decide (a = u)) as [->|Hne].
  - rewrite decide_False; [|intros Hn; apply Hn, elem_of_union_l, elem_of_singleton; done].
    rewrite decide_True by done. csimpl.
    assert (V ⊆ {[u]} ∪ V) as Hsub by apply union_subseteq_r.
    pose proof (sum_list_filter_mono c V ({[u]} ∪ V) U Hsub). lia.
  - apply elem_of_cons in Hin as [?|Hin]; [done|]. specialize (IH Hin).
    destruct (decide (a ∉ V)) as [HaV|HaV].
    + rewrite decide_True; [csimpl; lia|].
      rewrite elem_of_union, elem_of_singleton. tauto.
    + rewrite decide_False; [lia|].
      rewrite elem_of_union, elem_of_singleton. tauto.
Qed.

Lemma append_nil (b : string) : String.append EmptyString b = b.
Proof. reflexivity. Qed.

Lemma append_cons (c : ascii) (a b : string) :
  String.append (String c a) b = String c (String.append a b).
Proof. reflexivity. Qed.

(** [Str.contains] and [Str.endswith] say what Python's [in] and
    [endswith] say. *)
Lemma prefix_spec (a s : string) :
  String.prefix a s = true ↔ ∃ b, s = String.append a b.
Proof.
  revert s. induction a as [|c a IH]; intros s.
  - split; [intros _; by exists s|by destruct s].
  - destruct s as [|d s]; simpl.
    { split; [done|]. intros [b Hb]. by rewrite append_cons in Hb. }
    destruct (ascii_dec c d) as [->|Hne].
    + rewrite IH. split; intros [b Hb]; exists b; rewrite append_cons in *;
        congruence.
    + split; [done|]. intros [b Hb]. rewrite append_cons in Hb. congruence.
Qed.

Lemma contains_spec (sub s : string) :
  Str.contains sub s = true ↔
  ∃ a b, s = String.append a (String.append sub b).
Proof.
  induction s as [|c s IH]; cbn [Str.contains].
  - rewrite orb_false_r, prefix_spec. split.
    + intros [b Hb]. by exists EmptyString, b.
    + intros (a & b & Hab). destruct a as [|d a]; [by exists b|].
      by rewrite append_cons in Hab.
  - rewrite orb_true_iff, prefix_spec, IH. split.
    + intros [[b Hb]|(a & b & Hab)].
      * by exists EmptyString, b.
      * exists (String c a), b. by rewrite append_cons, Hab.
    + intros (a & b & Hab). destruct a as [|d a].
      * left. by exists b.
      * right. exists a, b. rewrite append_cons in Hab. congruence.
Qed.

Lemma endswith_spec (s suf : string) :
  Str.endswith s suf = true ↔ ∃ a, s = String.append a suf.
Proof.
  induction s as [|c s IH]; cbn [Str.endswith].
  - rewrite orb_false_r, String.eqb_eq. split.
    + intros <-. by exists EmptyString.
    + intros [a Ha]. destruct a as [|d a]; [done|].
      by rewrite append_cons in Ha.
  - rewrite orb_true_iff, String.eqb_eq, IH. split.
    + intros [<-|[a Ha]]; [by exists EmptyString|].
      exists (String c a). by rewrite append_cons, Ha.
    + intros [a Ha]. destruct a as [|d a]; [by left|].
      right. exists a. rewrite append_cons in Ha. congruence.
Qed.

Lemma append_assoc (a b c : string) :
  String.append (String.append a b) c = String.append a (String.append b c).
Proof.
  induction a as [|x a IH]; [done|]. by rewrite !append_cons, IH.
Qed.

(** A URL that holds none of the extensions anywhere cannot have a path,
    cut out of its text, that ends in one. *)
Lemma is_html_page_path (url pth : string) :
  is_html_page url = true →
  (∃ a b, url = String.append a (String.append pth b)) →
  existsb (Str.endswith pth) extensions_to_ignore = false.
Proof.
  intros Hh (a & b & ->). apply not_true_is_false. intros He.
  apply existsb_exists in He as (ext & Hin & He).
  apply endswith_spec in He as [c ->].
  unfold is_html_page in Hh. apply negb_true_iff in Hh.
  apply not_true_iff_false in Hh. apply Hh, existsb_exists.
  exists ext. split; [done|]. apply contains_spec.
  exists (String.append a c), b. by rewrite !append_assoc.
Qed.

Section proofs.

Context {env : Env}.

Lemma enqueued_nil url err s :
  enqueued url [] err s =
  if err then emit (EvErrCrawl url) s else s.
Proof.
  destruct s, err; unfold enqueued, emit; simpl;
    rewrite (left_id_L ∅ (∪)), app_nil_r; done.
Qed.

Lemma enqueue_links_eq url order s :
  enqueue_links url order s =
  enqueued url (accepted url (visited_urls s) order).1
    (accepted url (visited_urls s) order).2 s.
Proof.
  revert s. induction order as [|link rest IH]; intros s; simpl.
  - by rewrite enqueued_nil.
  - destruct (urlparse link) as [p|]; [destruct (urlparse url) as [b|]|];
      [|by rewrite enqueued_nil..].
    destruct (String.eqb (Urllib.netloc p) (Urllib.netloc b)); simpl;
      [|apply IH].
    destruct (negb (bool_decide (link ∈ visited_urls s))
              && budget_left (visited_urls s)); simpl;
      [|apply IH].
    rewrite IH. destruct s; unfold enqueued; simpl. rewrite filter_cons.
    destruct (is_html_page link) eqn:Hh; simpl; f_equal;
      try (by rewrite <-app_assoc); try lia;
      try (by rewrite reverse_cons, <-!app_assoc).
    set_solver.
Qed.

Ltac step_inv H :=
  unfold step, worker_step, main_step in H;
  repeat case_match; simplify_eq.

Lemma step_segment c s s' : step c s = Some s' ↔ segment c s s'.
Proof.
  split.
  - intros H. step_inv H.
    + apply seg_skip; [done..|].
    match goal with Hx : _ || _ = true |- _ =>
      apply orb_true_iff in Hx; simpl in Hx;
      rewrite bool_decide_eq_true in Hx; exact Hx end.
  + match goal with Hx : _ || _ = false |- _ =>
      apply orb_false_iff in Hx; simpl in Hx;
      rewrite bool_decide_eq_false in Hx; destruct Hx end.
    by apply (seg_begin i order s s0 l).
  + by apply seg_sentinel.
    + by apply seg_open.
    + by apply seg_nav_error.
    + by apply seg_query_error.
    + by eapply seg_rendered.
    + by apply seg_response.
    + rewrite enqueue_links_eq. eapply seg_links; [done|].
      by match goal with H : bool_decide _ = true |- _ =>
        apply bool_decide_eq_true in H end.
    + by eapply seg_element.
    + by eapply seg_element_error.
    + by apply seg_close.
    + by apply seg_cancelled.
    + apply seg_join; [done|].
      by match goal with H : (_ =? _) = true |- _ =>
        apply Nat.eqb_eq in H end.
    + by apply seg_close_browser.
  - destruct 1; simpl; unfold worker_step, main_step;
      repeat match goal with H : _ = _ |- _ => rewrite H end; simpl; try done.
    + match goal with Hx : _ ∨ _ |- _ => destruct Hx as [Hx|Hx] end.
    * by rewrite bool_decide_eq_true_2.
    * match goal with Hx : budget_reached _ = true |- _ => rewrite Hx end.
      by rewrite orb_true_r.
  + rewrite bool_decide_eq_false_2 by done.
    by match goal with Hx : budget_reached _ = false |- _ => rewrite Hx end.
    + rewrite bool_decide_eq_true_2 by done. by rewrite enqueue_links_eq.
Qed.

Lemma run_app cs1 cs2 s :
  run (cs1 ++ cs2) s = run cs1 s ≫= run cs2.
Proof.
  revert s. induction cs1 as [|c cs1 IH]; intros s; simpl; [done|].
  destruct (step c s); simpl; auto.
Qed.

Lemma run_snoc cs c s s' :
  run (cs ++ [c]) s = Some s' ↔ ∃ s1, run cs s = Some s1 ∧ step c s1 = Some s'.
Proof.
  rewrite run_app. destruct (run cs s) as [s1|]; simpl.
  - destruct (step c s1) eqn:E; split.
    + intros ?; simplify_eq. eauto.
    + intros (? & ? & ?); by simplify_eq.
    + done.
    + intros (? & ? & ?); simplify_eq.
  - split; [done|]. by intros (? & ? & ?).
Qed.

(** Induction over the states a schedule reaches. *)
Lemma reachable_ind seed (P : State → Prop) :
  P (start seed) →
  (∀ s c s', reachable seed s → P s → step c s = Some s' → P s') →
  ∀ s, reachable seed s → P s.
Proof.
  intros H0 Hstep s [cs Hcs]. revert s Hcs.
  induction cs as [|c cs IH] using rev_ind; intros s Hs.
  - simpl in Hs. by simplify_eq.
  - apply run_snoc in Hs as (s1 & Hs1 & Hc).
    eapply Hstep; [by exists cs| |done]. by apply IH.
Qed.

Lemma reachable_inv seed (P : State → Prop) :
  P (start seed) →
  (∀ s c s', reachable seed s → P s → segment c s s' → P s') →
  ∀ s, reachable seed s → P s.
Proof.
  intros H0 Hstep. apply reachable_ind; [done|].
  intros s c s' ?? Hc. apply step_segment in Hc. eauto.
Qed.

Lemma reachable_start seed : reachable seed (start seed).
Proof. by exists []. Qed.

Lemma reachable_step seed s c s' :
  reachable seed s → step c s = Some s' → reachable seed s'.
Proof.
  intros [cs Hcs] Hc. exists (cs ++ [c]). apply run_snoc. eauto.
Qed.

Lemma cancel_all_frame s l :
  foldl (λ s i, emit (EvCancel i) s) s l =
  mkState (visited_urls s) (discovered_urls s) (response_headers s)
    (queue_items s) (unfinished_tasks s) (tasks s) (orchestrator s)
    (open_contexts s) (open_pages s) (browser_open s)
    (reverse (EvCancel <$> l) ++ trace s).
Proof.
  revert s. induction l as [|i l IH]; intros s; simpl; [by destruct s|].
  rewrite IH. simpl. by rewrite reverse_cons, <-app_assoc.
Qed.

Lemma accepted_length url V order :
  length (accepted url V order).1 ≤ length order.
Proof.
  induction order as [|link rest IH]; simpl; [done|].
  repeat case_match; simpl; lia.
Qed.

Lemma accepted_elem url V order v :
  v ∈ (accepted url V order).1 →
  v ∈ order ∧ same_netloc url v = true ∧ (v ∉ V) ∧ budget_left V = true.
Proof.
  induction order as [|link rest IH]; simpl; [by intros ?%elem_of_nil|].
  destruct (urlparse link) as [p|] eqn:Hp;
    [destruct (urlparse url) as [b|] eqn:Hb|]; simpl;
    [|by intros ?%elem_of_nil..].
  destruct (String.eqb (Urllib.netloc p) (Urllib.netloc b)) eqn:Hn; simpl.
  - destruct (bool_decide (link ∈ V)) eqn:Hv; simpl.
    + intros Hin. destruct (IH Hin) as (? & ? & ? & ?).
      split_and!; [by right|done..].
    + destruct (budget_left V) eqn:Hbl; simpl.
      * intros [->|Hin]%elem_of_cons.
        -- apply bool_decide_eq_false in Hv. unfold same_netloc.
           rewrite Hp, Hb. split_and!; [by left|done..].
        -- destruct (IH Hin) as (? & ? & ? & ?). split_and!; [by right|done..].
      * intros Hin. destruct (IH Hin) as (? & ? & ? & ?).
        split_and!; [by right|done..].
  - intros Hin. destruct (IH Hin) as (? & ? & ? & ?).
    split_and!; [by right|done..].
Qed.

Lemma sum_list_busy_zero l :
  sum_list (busy1 <$> l) = 0 → Forall (λ w, busy w = false) l.
Proof.
  induction l as [|w l IH]; csimpl; [constructor|].
  unfold busy1 at 1. destruct (busy w) eqn:Hw; [lia|].
  intros Hz. constructor; auto.
Qed.

(** Discharges the cases in which a task runs after [join] has returned. *)
Ltac no_task_after_join :=
  match goal with
  | Hj : orchestrator _ ≠ Joining → _, Ht : tasks _ !! _ = Some _
    |- orchestrator _ ≠ Joining → _ =>
      let Hne := fresh in
      intros Hne; destruct (Hj Hne) as (_ & _ & Hc & _);
      eapply Forall_lookup_1 in Hc; [|exact Ht]; destruct Hc; discriminate
  end.

(** Discharges the cases in which a task runs after [main] has returned. *)
Ltac no_task_after_return :=
  match goal with
  | Hj : orchestrator _ = Returned → _, Ht : tasks _ !! _ = Some _
    |- orchestrator _ = Returned → _ =>
      let Hret := fresh in
      intros Hret; specialize (Hj Hret);
      eapply Forall_lookup_1 in Hj; [|exact Ht]; discriminate
  end.

Lemma no_cancelling (ts : list wstate) :
  existsb cancelling ts = false →
  Forall (λ w, w = Cancelled ∨ w = Cancelling) ts →
  Forall (λ w, w = Cancelled) ts.
Proof.
  induction ts as [|w ts IH]; simpl; [constructor|].
  intros [Hw Hts]%orb_false_iff Hall. inversion Hall as [|?? [->| ->] ?]; subst.
  - constructor; auto.
  - done.
Qed.

Lemma ctl_ok_reachable seed s : reachable seed s → ctl_ok s.
Proof.
  revert s. apply reachable_inv; [|intros s c s' Hr [] Hc].
  - split; simpl; try done.
    + repeat constructor; eauto.
    + intros p [?|?%elem_of_nil]%elem_of_cons; done.
    + intros _. split_and!; [done| |done]. repeat constructor; eauto.
  - destruct Hc; try (match goal with Hq : queue_items _ = None :: _ |- _ =>
        exfalso; rewrite Hq in ctl_items0;
        inversion ctl_items0 as [|?? Hn]; by destruct Hn
      end); split; simpl in *.
    all: try done.
    all: try no_task_after_join.
    all: try no_task_after_return.
    all: try (by rewrite length_insert).
    all: try (intros p; rewrite !elem_of_cons; specialize (ctl_puts0 p);
              naive_solver).
    all: try (match goal with Hq : queue_items _ = _ :: _ |- Forall _ _ =>
        rewrite Hq in *; by inversion ctl_items0 end).
    all: try (match goal with Ht : tasks _ !! _ = Some ?w
                |- orchestrator _ = Joining → _ =>
        let Hj := fresh in
        intros Hj; destruct (ctl_joining0 Hj) as (Hu & Hf & Hb);
        split_and!; [|apply Forall_insert; [done|by auto]|done];
        match goal with |- context [<[?i:=?w']> _] =>
          pose proof (sum_list_insert busy1 _ _ _ w' Ht) as Hs end;
        try (match goal with Hq : queue_items _ = _ |- _ =>
               rewrite Hq in * end);
        simpl in *; rewrite ?length_app, ?length_fmap in *;
        unfold busy1 in *; simpl in *; lia end).
    + intros Hj. destruct (ctl_joining0 Hj) as (Hu & Hf & Hb).
      match goal with Hq : queue_items _ = _ |- _ => rewrite Hq in Hu end.
      simpl in Hu. split_and!; [lia|done..].
    + apply Forall_app. split; [done|]. apply Forall_fmap, Forall_true; eauto.
    + intros p. rewrite !elem_of_app, elem_of_reverse, list_elem_of_fmap.
      intros [Hp|[(v & ? & ?)|Hp]]; [|done|by eapply ctl_puts0].
      destruct (accepted _ _ _).2; [|by apply elem_of_nil in Hp].
      by apply list_elem_of_singleton in Hp.
    + by rewrite length_fmap.
    + by rewrite cancel_all_frame.
    + intros p. rewrite cancel_all_frame. simpl.
      rewrite elem_of_app, elem_of_reverse, list_elem_of_fmap.
      intros [(? & ? & ?)|?]; [done|]. by eapply ctl_puts0.
    + intros _.
      match goal with Hj : orchestrator _ = Joining |- _ =>
        destruct (ctl_joining0 Hj) as (Hu & Hf & Hb) end.
      rewrite !cancel_all_frame. cbn [unfinished_tasks queue_items].
      assert (Forall (λ w, w = Idle) (tasks s)) as Hidle.
      { match goal with Hz : unfinished_tasks _ = 0 |- _ =>
          rewrite Hz in Hu end.
        assert (sum_list (busy1 <$> tasks s) = 0) as Hz by lia.
        apply sum_list_busy_zero in Hz.
        apply Forall_forall. intros w Hw.
        destruct (proj1 (Forall_forall _ _) Hf w Hw) as [?|Hbusy]; [done|].
        apply (proj1 (Forall_forall _ _) Hz) in Hw. congruence. }
      split_and!; [done| |..].
      * destruct (queue_items s); [done|]. simpl in Hu. lia.
      * apply Forall_fmap. eapply Forall_impl; [exact Hidle|].
        intros ? ->. by right.
      * intros i Hi. apply elem_of_app. left.
        apply elem_of_reverse, list_elem_of_fmap_2.
        apply elem_of_seq. rewrite ctl_tasks0. lia.
    + intros Hj. destruct (ctl_joining0 Hj) as (_ & Hf & _).
      match goal with Ht : tasks _ !! _ = Some Cancelling |- _ =>
        apply (Forall_lookup_1 _ _ _ _ Hf) in Ht; by destruct Ht end.
    + intros Hj. destruct (ctl_joined0 Hj) as (? & ? & ? & ?).
      split_and!; [done..| |done]. apply Forall_insert; [done|by left].
    + intros _. destruct ctl_joined0 as (? & ? & ? & Hc); [congruence|].
      split_and!; [done..|]. intros i Hi. right. by apply Hc.
    + intros _. apply no_cancelling; [done|].
      by destruct ctl_joined0 as (_ & _ & ? & _); [congruence|].
Qed.

Lemma crawl_starts_app tr1 tr2 :
  crawl_starts (tr1 ++ tr2) = crawl_starts tr1 ++ crawl_starts tr2.
Proof.
  induction tr1 as [|e tr1 IH]; simpl; [done|].
  destruct e; simpl; by rewrite ?IH.
Qed.

Lemma crawl_starts_enqueued url added err s :
  crawl_starts (trace (enqueued url added err s)) = crawl_starts (trace s).
Proof.
  simpl. rewrite !crawl_starts_app.
  assert (crawl_starts (if err then [EvErrCrawl url] else []) = []) as ->
    by by destruct err.
  assert (∀ l, crawl_starts
            (reverse ((λ v, EvPut (Some url) (Some v)) <$> l)) = []) as ->;
    [|done].
  intros l. induction l as [|v l IH]; csimpl; [done|].
  by rewrite reverse_cons, crawl_starts_app, IH.
Qed.

Lemma crawl_starts_cancels l : crawl_starts (reverse (EvCancel <$> l)) = [].
Proof.
  induction l as [|i l IH]; csimpl; [done|].
  by rewrite reverse_cons, crawl_starts_app, IH.
Qed.

Lemma remove_one_elem x y l : x ∈ remove_one y l → x ∈ l.
Proof.
  induction l as [|z l IH]; simpl; [done|].
  destruct (String.eqb y z); [intros ?; by right|].
  rewrite !elem_of_cons. intros [->|?]; [by left|right; auto].
Qed.

Lemma start_tasks seed i w : tasks (start seed) !! i = Some w → w = Idle.
Proof.
  change (tasks (start seed)) with (replicate number_of_workers Idle).
  by intros [-> _]%lookup_replicate_1.
Qed.

Lemma visit_ok_reachable seed s : reachable seed s → visit_ok s.
Proof.
  revert s. apply reachable_inv; [|intros s c s' Hr [] Hc].
  - split.
    + constructor.
    + simpl. intros u. rewrite elem_of_nil. set_solver.
    + intros i w u Hi. apply start_tasks in Hi. by subst.
    + intros i j w w' u Hi. apply start_tasks in Hi. by subst.
    + simpl. intros u [?%elem_of_nil|?%elem_of_nil]; done.
    + intros n _ ?. change (visited_urls (start seed)) with (∅ : gset string).
      rewrite size_empty. lia.
  - destruct Hc; split;
      try (pose proof (crawl_starts_enqueued url
             (accepted url (visited_urls s) order).1
             (accepted url (visited_urls s) order).2 s) as Hcs);
      rewrite ?cancel_all_frame; simpl in *;
      rewrite ?Hcs, ?crawl_starts_app, ?crawl_starts_cancels; try done.
    all: try (intros i0 w u Hl Hu;
              apply list_lookup_insert_Some in Hl as [(-> & <- & _)|(? & Hl)];
              simpl in *; simplify_eq;
              first [by eapply vis_tasks0
                    |apply elem_of_union;
                     first [right; by eapply vis_tasks0
                           |left; by apply elem_of_singleton]]).
    all: try (intros i0 j w w' u Hl1 Hl2 Hu Hu';
              apply list_lookup_insert_Some in Hl1 as [(-> & <- & _)|(? & Hl1)];
              apply list_lookup_insert_Some in Hl2 as [(-> & <- & _)|(? & Hl2)];
              simpl in *; simplify_eq; try done;
              try (by eapply vis_distinct0);
              try (match goal with Hne : ?a ≠ ?b |- _ =>
                     exfalso; apply Hne;
                     first [by eapply (vis_distinct0 a b)
                           |symmetry; by eapply (vis_distinct0 b a)] end);
              exfalso;
              match goal with Hn : ?u ∉ visited_urls _ |- _ =>
                apply Hn; by eapply vis_tasks0 end).
    + apply NoDup_cons. split; [|done]. by rewrite <-vis_trace0.
    + intros u. rewrite elem_of_union, elem_of_singleton, elem_of_cons.
      by rewrite vis_trace0.
    + intros u Hu. apply elem_of_union. right. by apply vis_browser0.
    + intros n Hn Hpos. unfold budget_reached in *. rewrite Hn in *.
      rewrite size_union, size_singleton by set_solver.
      destruct (Z.eqb_spec n 0); [lia|]. simpl in *.
      match goal with Hb : (_ <=? _)%Z = false |- _ =>
        apply Z.leb_gt in Hb; lia end.
    + intros u. rewrite !elem_of_cons. intros [[->|?]|[->|?]];
        try (by eapply vis_tasks0); apply vis_browser0; auto.
    + intros u [?|?%remove_one_elem]; apply vis_browser0; auto.
    + intros i w u (w0 & -> & ?)%list_lookup_fmap_Some. by destruct w0.
    + intros i j w w' u (w0 & -> & ?)%list_lookup_fmap_Some. by destruct w0.
    + intros u [?%elem_of_nil|?%elem_of_nil]; done.
Qed.

Lemma remove_one_NoDup y l :
  NoDup l → NoDup (remove_one y l) ∧ ∀ x, x ∈ remove_one y l ↔ x ∈ l ∧ x ≠ y.
Proof.
  induction 1 as [|z l Hz Hl [IH1 IH2]]; simpl.
  - split; [constructor|]. intros x. rewrite elem_of_nil. tauto.
  - destruct (String.eqb_spec y z) as [->|Hne].
    + split; [done|]. intros x. rewrite elem_of_cons.
      split; [intros Hx; split; [by right|by intros ->]|].
      by intros [[->|?] ?].
    + split.
      * constructor; [|done]. rewrite IH2. tauto.
      * intros x. rewrite !elem_of_cons, IH2.
        split; [intros [->|[??]]; split; auto; congruence|].
        intros [[->|?] ?]; auto.
Qed.

Lemma page_of_task_url w u : page_of w = Some u → task_url w = Some u.
Proof. by destruct w. Qed.

(** Which tasks hold a page after task [i] moves from [w] to [w']. *)
Lemma pages_insert (ts : list wstate) i w w' u :
  ts !! i = Some w →
  (∃ j x, <[i:=w']> ts !! j = Some x ∧ page_of x = Some u) ↔
  page_of w' = Some u ∨ ∃ j x, j ≠ i ∧ ts !! j = Some x ∧ page_of x = Some u.
Proof.
  intros Hi. split.
  - intros (j & x & Hj & Hx).
    apply list_lookup_insert_Some in Hj as [(-> & <- & _)|(? & Hj)]; [by left|].
    right. exists j, x. auto.
  - intros [Hx|(j & x & ? & Hj & Hx)].
    + exists i, w'. split; [|done]. apply list_lookup_insert_eq.
      by eapply lookup_lt_Some.
    + exists j, x. split; [|done]. by rewrite list_lookup_insert_ne.
Qed.

Lemma pages_split (ts : list wstate) i w u :
  ts !! i = Some w →
  (∃ j x, ts !! j = Some x ∧ page_of x = Some u) ↔
  page_of w = Some u ∨ ∃ j x, j ≠ i ∧ ts !! j = Some x ∧ page_of x = Some u.
Proof.
  intros Hi. rewrite <-(pages_insert ts i w w u Hi).
  by rewrite list_insert_id.
Qed.

Lemma browser_ok_reachable seed s : reachable seed s → browser_ok s.
Proof.
  revert s. apply reachable_inv; [|intros s c s' Hr [] Hc].
  - split; simpl.
    + constructor.
    + intros u. rewrite elem_of_nil. split; [done|].
      intros (i & w & Hi & Hw). apply (start_tasks seed) in Hi. by subst.
    + intros _ u. set_solver.
  - pose proof (visit_ok_reachable _ _ Hr) as [].
    pose proof (ctl_ok_reachable _ _ Hr) as Hctl.
    destruct Hc; split; rewrite ?cancel_all_frame; simpl in *; try done.
    all: try (match goal with Ht : tasks _ !! _ = Some _ |- ∀ u, _ ↔ _ =>
                intros u; rewrite (pages_insert _ _ _ _ _ Ht);
                rewrite br_pages0, (pages_split _ _ _ _ Ht); simpl; done end).
    all: try (match goal with Ht : tasks _ !! ?i = Some _
                |- browser_open _ = true → ∀ u, _ ∈ visited_urls _ → _ =>
                let Hb := fresh in let Hu := fresh in let j := fresh "j" in
                let Hj := fresh in
                intros Hb u Hu;
                destruct (br_contexts0 Hb u Hu) as [(j & Hj)|?];
                [|right; rewrite ?elem_of_cons; by auto];
                destruct (decide (j = i)) as [->|];
                [simplify_eq; right; by left
                |left; exists j; by rewrite list_lookup_insert_ne] end).
    + intros Hb u [->%elem_of_singleton|Hu]%elem_of_union.
      * left. exists i. apply list_lookup_insert_eq. by eapply lookup_lt_Some.
      * destruct (br_contexts0 Hb u Hu) as [(j & Hj)|?]; [|by right].
        left. exists j. rewrite list_lookup_insert_ne; [done|congruence].
    + constructor; [|done]. rewrite br_pages0. intros (j & w & Hj & Hw).
      pose proof (page_of_task_url _ _ Hw) as Hw'.
      match goal with Ht : tasks _ !! _ = Some (Opening _) |- _ =>
        pose proof (vis_distinct0 _ _ _ _ _ Ht Hj eq_refl Hw'); by simplify_eq
      end.
    + intros u.
      match goal with Ht : tasks _ !! _ = Some _ |- _ =>
        rewrite (pages_insert _ _ _ _ _ Ht), elem_of_cons, br_pages0,
          (pages_split _ _ _ _ Ht) end.
      simpl. naive_solver.
    + by apply remove_one_NoDup.
    + intros u.
      match goal with Ht : tasks _ !! _ = Some _ |- _ =>
        rewrite (pages_insert _ _ _ _ _ Ht),
          (proj2 (remove_one_NoDup _ _ br_nodup0)), br_pages0,
          (pages_split _ _ _ _ Ht); simpl;
        split; [intros [[?|?] ?]; [by simplify_eq|by right]|];
        intros [?|(j & w & ? & Hj & Hw)]; [done|];
        split; [right; by eauto|intros ->];
        apply page_of_task_url in Hw;
        pose proof (vis_distinct0 _ _ _ _ _ Ht Hj eq_refl Hw); by simplify_eq
      end.
    + intros u. rewrite br_pages0. split.
      * intros (j & w & Hj & Hw). destruct (ctl_joining _ Hctl) as (_ & Hf & _); [done|].
        assert (sum_list (busy1 <$> tasks s) = 0) as Hz.
        { destruct (ctl_joining _ Hctl) as (Hu & _); [done|]. lia. }
        apply sum_list_busy_zero in Hz.
        apply (Forall_lookup_1 _ _ _ _ Hz) in Hj. by destruct w.
      * intros (j & w & (w0 & -> & ?)%list_lookup_fmap_Some & Hw).
        by destruct w0.
    + intros Hb u Hu. right.
      destruct (br_contexts0 Hb u Hu) as [(j & Hj)|?]; [|done].
      assert (sum_list (busy1 <$> tasks s) = 0) as Hz.
      { destruct (ctl_joining _ Hctl) as (Hx & _); [done|]. lia. }
      apply sum_list_busy_zero in Hz.
      by apply (Forall_lookup_1 _ _ _ _ Hz) in Hj.
    + constructor.
    + intros u. rewrite elem_of_nil. split; [done|].
      intros (j & w & Hj & Hw).
      destruct (ctl_joined _ Hctl) as (_ & _ & Hc & _); [congruence|].
      apply (Forall_lookup_1 _ _ _ _ Hc) in Hj. by destruct Hj as [-> | ->].
Qed.

Lemma extract_link_hrefs u V e es links :
  match extract_link u V e links with
  | None => hrefs u (e :: es) = []
  | Some links' =>
      (hrefs u (e :: es) = hrefs u es ∧ links' = links) ∨
      ∃ abs_url, hrefs u (e :: es) = abs_url :: hrefs u es ∧
        links' = if bool_decide (abs_url ∈ V) then links
                 else {[abs_url]} ∪ links
  end.
Proof.
  destruct e as [href src|]; simpl; [|done].
  destruct (attr_or href src) as [link|]; [|by left].
  destruct (Str.truthy link); [|by left].
  destruct (urljoin u link) as [abs_url|]; [|done].
  right. by exists abs_url.
Qed.

Lemma elem_of_puts tr p item : (p, item) ∈ puts tr ↔ EvPut p item ∈ tr.
Proof.
  induction tr as [|e tr IH]; simpl; [by rewrite !elem_of_nil|].
  destruct e; rewrite ?elem_of_cons, IH; naive_solver.
Qed.

Lemma puts_app tr1 tr2 : puts (tr1 ++ tr2) = puts tr1 ++ puts tr2.
Proof.
  induction tr1 as [|e tr1 IH]; simpl; [done|].
  destruct e; simpl; by rewrite ?IH.
Qed.

Lemma puts_cancels l : puts (reverse (EvCancel <$> l)) = [].
Proof.
  induction l as [|i l IH]; csimpl; [done|].
  by rewrite reverse_cons, puts_app, IH.
Qed.

Lemma puts_enqueued url added err s :
  puts (trace (enqueued url added err s)) =
  reverse ((λ v, (Some url, Some v)) <$> added) ++ puts (trace s).
Proof.
  simpl. rewrite !puts_app.
  assert (puts (if err then [EvErrCrawl url] else []) = []) as ->
    by by destruct err.
  simpl. f_equal. induction added as [|v l IH]; csimpl; [done|].
  by rewrite !reverse_cons, puts_app, IH.
Qed.

Lemma links_ok_reachable seed s : reachable seed s → links_ok seed s.
Proof.
  revert s. apply reachable_inv; [|intros s c s' Hr [] Hc].
  - split; simpl.
    + by intros item [?|?%elem_of_nil]%elem_of_cons; simplify_eq.
    + by intros u v [?|?%elem_of_nil]%elem_of_cons.
    + intros v. split; [set_solver|].
      by intros [_ (u & [?|?%elem_of_nil]%elem_of_cons)].
    + intros v [?|?%elem_of_nil]%elem_of_cons; [|done]. left. by simplify_eq.
    + set_solver.
    + by right.
    + intros i u es links Hi. apply (start_tasks seed) in Hi. by subst.
  - pose proof (visit_ok_reachable _ _ Hr) as [].
    destruct Hc; split;
      try (pose proof (puts_enqueued url
             (accepted url (visited_urls s) order).1
             (accepted url (visited_urls s) order).2 s) as Hps);
      rewrite ?cancel_all_frame; simpl in *;
      rewrite ?Hps, ?puts_app, ?puts_cancels; simpl; try done.
    all: try (match goal with Hq : queue_items _ = _ :: _
                |- ∀ v, Some v ∈ _ → _ =>
                intros v Hv; apply lk_queue0; rewrite Hq; by right end).
    all: try (intros i0 u0 es0 links0 Hl;
              apply list_lookup_insert_Some in Hl as [(-> & Heq & _)|(? & Hl)];
              [discriminate|];
              destruct (lk_extracting0 _ _ _ _ Hl) as [Hl1 Hl2];
              split; [done|]; intros v Hv;
              destruct (Hl2 v Hv) as [?|[?|?]]; auto;
              right; left; apply elem_of_union; by right).
    + intros u v Hp. destruct (lk_puts0 u v Hp) as (? & ? & ?).
      split_and!; [|done..]. apply elem_of_union. by right.
    + intros v [->%elem_of_singleton|Hv]%elem_of_union; [|by auto].
      apply lk_queue0.
      match goal with Hq : queue_items _ = _ |- _ => rewrite Hq end. by left.
    + destruct lk_first0 as [?|Hempty];
        [left; apply elem_of_union; by right|].
      left. apply elem_of_union. left. apply elem_of_singleton.
      destruct (lk_queue0 url) as [?|(u & Hu)]; [|done|].
      * match goal with Hq : queue_items _ = _ |- _ => rewrite Hq end. by left.
      * apply lk_puts0 in Hu as (Hu & _). rewrite Hempty in Hu.
        by apply not_elem_of_empty in Hu.
    + intros i0 u0 es0 links0 Hl.
      apply list_lookup_insert_Some in Hl as [(-> & Heq & _)|(? & Hl)];
        [|by eapply lk_extracting0].
      simplify_eq. unfold page_links.
      match goal with Ho : outcome _ = _ |- _ => rewrite Ho end.
      split; [intros v [?%not_elem_of_empty|?]; done|auto].
    + intros i0 u0 es0 links0 Hl.
      apply list_lookup_insert_Some in Hl as [(-> & Heq & _)|(? & Hl)];
        [|by eapply lk_extracting0].
      simplify_eq.
      match goal with Ht : tasks _ !! _ = Some _ |- _ =>
        destruct (lk_extracting0 _ _ _ _ Ht) as [Hl1 Hl2] end.
      match goal with He : extract_link _ _ ?e _ = Some _ |- _ =>
        pose proof (extract_link_hrefs u0 (visited_urls s) e es0 links) as Hx;
        rewrite He in Hx end.
      destruct Hx as [[Hh ->]|(a & Hh & ->)]; rewrite Hh in *; [done|].
      split.
      * intros v Hv. apply Hl1. rewrite elem_of_cons.
        destruct (bool_decide (a ∈ visited_urls s)); [tauto|].
        rewrite elem_of_union, elem_of_singleton in Hv. tauto.
      * intros v Hv. specialize (Hl2 v Hv). rewrite elem_of_cons in Hl2.
        destruct (bool_decide (a ∈ visited_urls s)) eqn:Ha.
        -- apply bool_decide_eq_true in Ha.
           destruct Hl2 as [?|[?|[->|?]]]; auto.
        -- rewrite elem_of_union, elem_of_singleton. tauto.
    + intros i0 u0 es0 links0 Hl.
      apply list_lookup_insert_Some in Hl as [(-> & Heq & _)|(? & Hl)];
        [|by eapply lk_extracting0].
      simplify_eq.
      match goal with Ht : tasks _ !! _ = Some _ |- _ =>
        destruct (lk_extracting0 _ _ _ _ Ht) as [Hl1 Hl2] end.
      match goal with He : extract_link _ _ ?e ?l = None |- _ =>
        pose proof (extract_link_hrefs u0 (visited_urls s) e es l) as Hx;
        rewrite He in Hx end.
      rewrite Hx in *. simpl. split.
      * intros v [?|?%elem_of_nil]; [|done]. apply Hl1. by left.
      * intros v Hv. destruct (Hl2 v Hv) as [?|[?|?%elem_of_nil]]; auto.
    + intros item. rewrite elem_of_app, elem_of_reverse, list_elem_of_fmap.
      intros [(v0 & ? & ?)|?]; [done|auto].
    + intros u v. rewrite elem_of_app, elem_of_reverse, list_elem_of_fmap.
      intros [(v0 & ? & Hv0)|?]; [|auto]. simplify_eq.
      apply accepted_elem in Hv0 as (Ho & Hn & Hv & _).
      match goal with Ht : tasks _ !! _ = Some _ |- _ =>
        destruct (lk_extracting0 _ _ _ _ Ht) as [Hl1 _];
        pose proof (vis_tasks0 _ _ _ Ht eq_refl) as Hu end.
      match goal with Hp : _ ≡ₚ _ |- _ => rewrite Hp in Ho end.
      apply elem_of_elements in Ho. split_and!; [done|split; auto|].
      intros ->. destruct lk_first0 as [?|Hempty]; [done|].
      rewrite Hempty in Hu. by apply not_elem_of_empty in Hu.
    + intros v. rewrite elem_of_union, elem_of_list_to_set, list_elem_of_filter.
      rewrite lk_discovered0. split.
      * intros [[? Hv]|[? (u & Hu)]]; (split; [done|]).
        -- exists url. rewrite elem_of_app, elem_of_reverse, list_elem_of_fmap.
           left. by exists v.
        -- exists u. rewrite elem_of_app. by right.
      * intros [Hh (u & Hu)].
        rewrite elem_of_app, elem_of_reverse, list_elem_of_fmap in Hu.
        destruct Hu as [(v0 & ? & ?)|?]; simplify_eq; [by left|].
        right. eauto.
    + intros v. rewrite elem_of_app, list_elem_of_fmap.
      intros [Hv|(v0 & ? & ?)]; simplify_eq.
      * destruct (lk_queue0 v Hv) as [?|(u & ?)]; [by left|right].
        exists u. rewrite elem_of_app. by right.
      * right. exists url.
        rewrite elem_of_app, elem_of_reverse, list_elem_of_fmap.
        left. eauto.
    + intros v Hv. destruct (lk_visited0 v Hv) as [?|(u & ?)]; [by left|right].
      exists u. rewrite elem_of_app. by right.
    + intros i u es links (w0 & ? & ?)%list_lookup_fmap_Some. by destruct w0.
Qed.


Lemma handle_response_lookup r m k x :
  handle_response r m !! k = Some x →
  m !! k = Some x ∨ ((k, x) ∈ r ∧ Str.lower k ∉ ignored_headers).
Proof.
  unfold handle_response. revert m.
  induction r as [|[h v] r IH]; intros m; simpl; [by left|].
  intros Hk. apply IH in Hk as [Hk|[Hk ?]]; [|right; split; [by right|done]].
  case_bool_decide as Hi; [by left|]. simpl in Hk.
  apply lookup_insert_Some in Hk as [[<- <-]|[_ ?]]; [|by left].
  right. split; [by left|done].
Qed.

Lemma headers_ok_reachable seed s : reachable seed s → headers_ok s.
Proof.
  revert s. apply reachable_inv; [|intros s c s' Hr [] Hc].
  - split; simpl.
    + intros i u rs Hi. apply (start_tasks seed) in Hi. by subst.
    + intros k x. by rewrite lookup_empty.
  - pose proof (visit_ok_reachable _ _ Hr) as [].
    destruct Hc; split; rewrite ?cancel_all_frame; simpl in *; try done.
    all: try (intros i0 u0 rs0 Hl;
              apply list_lookup_insert_Some in Hl as [(-> & Heq & _)|(? & Hl)];
              [simplify_eq|by eapply hd_loading0]).
    + intros k x Hk. destruct (hd_keys0 k x Hk) as (? & u & r & ? & ? & ?).
      split; [done|]. exists u, r. split_and!; [|done..].
      apply elem_of_union. by right.
    + done.
    + intros r0 Hr0.
      match goal with Ht : tasks _ !! _ = Some _ |- _ =>
        apply (hd_loading0 _ _ _ Ht) end. by right.
    + intros k x [Hk|[Hk ?]]%handle_response_lookup; [by auto|].
      split; [done|]. exists url, r. split_and!; [|..|done].
      * by eapply vis_tasks0.
      * match goal with Ht : tasks _ !! _ = Some _ |- _ =>
          apply (hd_loading0 _ _ _ Ht) end. by left.
    + intros i u rs (w0 & ? & ?)%list_lookup_fmap_Some. by destruct w0.
Qed.


Lemma universe_ok_reachable (P : string → Prop) seed s :
  P seed → (∀ u v, P u → edge u v → P v) →
  reachable seed s → universe_ok P s.
Proof.
  intros Hseed Hclosed. revert s.
  apply reachable_inv; [|intros s c s' Hr [] Hc].
  - split; simpl; [set_solver|].
    intros v [?|?%elem_of_nil]%elem_of_cons; by simplify_eq.
  - pose proof (visit_ok_reachable _ _ Hr) as [].
    pose proof (links_ok_reachable _ _ Hr) as [].
    destruct Hc; split; rewrite ?cancel_all_frame; simpl in *; try done.
    all: try (match goal with Hq : queue_items _ = _ :: _
                |- ∀ v, Some v ∈ _ → _ =>
                intros v Hv; apply un_queue0; rewrite Hq; by right end).
    + intros v [->%elem_of_singleton|Hv]%elem_of_union; [|by auto].
      apply un_queue0.
      match goal with Hq : queue_items _ = _ |- _ => rewrite Hq end. by left.
    + intros v. rewrite elem_of_app, list_elem_of_fmap.
      intros [Hv|(v0 & ? & Hv0)]; [by auto|]. simplify_eq.
      apply accepted_elem in Hv0 as (Ho & Hn & _).
      match goal with Ht : tasks _ !! _ = Some _ |- _ =>
        destruct (lk_extracting0 _ _ _ _ Ht) as [Hl1 _];
        pose proof (vis_tasks0 _ _ _ Ht eq_refl) as Hu end.
      match goal with Hp : _ ≡ₚ _ |- _ => rewrite Hp in Ho end.
      apply elem_of_elements in Ho.
      apply (Hclosed url v0); [by auto|]. split; auto.
Qed.

Lemma extract_link_size u V e links links' :
  extract_link u V e links = Some links' → size links' ≤ S (size links).
Proof.
  intros He. pose proof (extract_link_hrefs u V e [] links) as Hx.
  rewrite He in Hx. destruct Hx as [[_ ->]|(a & _ & ->)]; [lia|].
  case_bool_decide; [lia|].
  rewrite size_union_alt, size_singleton.
  assert (size (links ∖ {[a]}) ≤ size links); [|lia].
  apply subseteq_size. set_solver.
Qed.

Lemma pot_cancelled (ts : list wstate) :
  sum_list (pot <$> (cancel_task <$> ts)) ≤ length ts.
Proof.
  induction ts as [|w ts IH]; csimpl; [done|]. destruct w; simpl; lia.
Qed.

Lemma measure_decreases U seed s c s' :
  closed_under_links U seed → reachable seed s → segment c s s' →
  measure U s' < measure U s.
Proof.
  intros HU Hr Hc.
  pose proof (universe_ok_reachable (λ u, u ∈ U) _ _
                (proj1 HU) (proj2 HU) Hr) as [].
  pose proof (ctl_tasks _ (ctl_ok_reachable _ _ Hr)) as Hlen.
  destruct Hc; unfold measure; rewrite ?cancel_all_frame; simpl.
  all: try (match goal with Ht : tasks _ !! ?i = Some _
              |- context [<[?i:=?w']> _] =>
              pose proof (sum_list_insert pot _ _ _ w' Ht) as Hs;
              cbn [pot length] in Hs end).
  all: try (match goal with Hq : queue_items _ = _ |- _ => rewrite Hq in * end);
    simpl.
  all: try (match goal with Ho : outcome _ = _ |- _ =>
              unfold after_load in Hs; rewrite Ho in Hs end);
    rewrite ?size_empty in *.
  all: try (match goal with Ho : orchestrator _ = _ |- _ => rewrite Ho end);
    simpl.
  all: try lia.
  - pose proof (sum_list_filter_drop cost (visited_urls s) url U) as Hd.
    unfold cost in Hd at 2. cbn [pot] in Hd.
    assert (url ∈ U) as HinU.
    { apply un_queue0. by left. }
    specialize (Hd HinU ltac:(done)). lia.
  - match goal with He : extract_link _ _ _ _ = Some _ |- _ =>
      apply extract_link_size in He end. lia.
  - rewrite length_app, length_fmap.
    pose proof (accepted_length url (visited_urls s) order) as Ha.
    match goal with Hp : _ ≡ₚ _ |- _ => apply Permutation_length in Hp end.
    unfold size, set_size in Hs. simpl in *. lia.
  - pose proof (pot_cancelled (tasks s)). unfold number_of_workers in *. lia.
Qed.


Lemma run_bounded U seed cs s0 s :
  closed_under_links U seed → reachable seed s0 → run cs s0 = Some s →
  length cs + measure U s ≤ measure U s0.
Proof.
  intros HU. revert s0. induction cs as [|c cs IH]; intros s0 Hr; simpl.
  - intros ?; simplify_eq. lia.
  - destruct (step c s0) as [s1|] eqn:Hc; [|done]. intros Hrun.
    pose proof (reachable_step _ _ _ _ Hr Hc) as Hr1.
    apply step_segment in Hc.
    pose proof (measure_decreases _ _ _ _ _ HU Hr Hc).
    specialize (IH _ Hr1 Hrun). lia.
Qed.

Lemma sum_list_busy_pos (ts : list wstate) :
  sum_list (busy1 <$> ts) ≠ 0 → ∃ i w, ts !! i = Some w ∧ busy w = true.
Proof.
  induction ts as [|w ts IH]; csimpl; [done|].
  destruct (busy w) eqn:Hw; [intros _; by exists 0, w|].
  unfold busy1 at 1. rewrite Hw. simpl. intros Hne.
  destruct (IH Hne) as (i & w' & ? & ?). by exists (S i), w'.
Qed.

(** A busy task can run its next segment, unless the browser raises on
    its URL. *)
Lemma busy_task_steps s i w :
  tasks s !! i = Some w → busy w = true →
  (∀ u, task_url w = Some u → reliable u) →
  ∃ order, is_Some (worker_step i order s).
Proof.
  intros Hi Hw Hrel. unfold worker_step. rewrite Hi.
  destruct w as [|url|url [|r rs]|url [|e es] links|url| | |]; try done.
  - exists []. destruct (Hrel url eq_refl) as [-> _]. done.
  - exists []. by destruct (outcome (web url)).
  - by exists [].
  - exists (elements links). by rewrite bool_decide_eq_true_2.
  - exists []. by destruct (extract_link url (visited_urls s) e links).
  - exists []. destruct (Hrel url eq_refl) as [_ ->]. done.
Qed.

(** As long as [main] has not returned, some segment can run, unless
    the browser raises on a visited URL. *)
Lemma progress seed s :
  reachable seed s → (∀ u, u ∈ visited_urls s → reliable u) →
  orchestrator s ≠ Returned → ∃ c, is_Some (step c s).
Proof.
  intros Hr Hrel Hm. pose proof (ctl_ok_reachable _ _ Hr) as Hctl.
  destruct (orchestrator s) eqn:Ho; [| |done].
  - destruct (ctl_joining _ Hctl Ho) as (Hu & Hf & _).
    destruct (decide (sum_list (busy1 <$> tasks s) = 0)) as [Hz|Hnz].
    + destruct (queue_items s) as [|item q] eqn:Hq.
      * exists Orchestrator. simpl. unfold main_step. rewrite Ho.
        simpl in Hu. rewrite Hz in Hu. by rewrite Hu.
      * assert (tasks s !! 0 = Some Idle) as H0.
        { destruct (tasks s) as [|w ts] eqn:Hts.
          - pose proof (ctl_tasks _ Hctl) as Hl. by rewrite Hts in Hl.
          - apply sum_list_busy_zero in Hz.
            inversion Hz; inversion Hf; simplify_eq. simpl.
            naive_solver congruence. }
        exists (Task 0 []). simpl. unfold worker_step. rewrite H0, Hq.
        destruct item; [|done]. by case_match.
    + apply sum_list_busy_pos in Hnz as (i & w & Hi & Hw).
      destruct (busy_task_steps _ _ _ Hi Hw) as [order ?].
      { intros u Hwu. apply Hrel.
        by apply (vis_tasks _ (visit_ok_reachable _ _ Hr) i w u). }
      by exists (Task i order).
  - destruct (existsb cancelling (tasks s)) eqn:Hex.
    + apply existsb_exists in Hex as (w & Hin & Hw).
      apply list_elem_of_In, list_elem_of_lookup in Hin as [i Hi].
      exists (Task i []). simpl. unfold worker_step. rewrite Hi.
      by destruct w.
    + exists Orchestrator. simpl. unfold main_step. by rewrite Ho, Hex.
Qed.

Lemma accepted_complete url V order v :
  budget_left V = true → (∀ w, w ∈ order → is_Some (urlparse w)) →
  v ∈ order → same_netloc url v = true → v ∉ V →
  v ∈ (accepted url V order).1.
Proof.
  intros Hb Hparse Hin Hn Hv.
  assert (is_Some (urlparse url)) as [b Hbase].
  { unfold same_netloc in Hn. destruct (urlparse v); [|done].
    by destruct (urlparse url). }
  induction order as [|link rest IH]; [by apply elem_of_nil in Hin|].
  simpl. destruct (Hparse link) as [p Hp]; [by left|]. rewrite Hp, Hbase, Hb.
  assert (v ∈ rest → v ∈ (accepted url V rest).1) as IH'.
  { intros ?. apply IH; [|done]. intros w ?. apply Hparse. by right. }
  apply elem_of_cons in Hin as [->|Hin].
  - unfold same_netloc in Hn. rewrite Hp, Hbase in Hn. rewrite Hn.
    rewrite bool_decide_eq_false_2 by done. simpl. by left.
  - case_match; simpl; [right|]; auto.
Qed.

Lemma settled_insert (ts : list wstate) i w w' u :
  ts !! i = Some w → settled (<[i:=w']> ts) u →
  (task_url w = Some u → w = Closing u) → settled ts u.
Proof.
  intros Hi Hs Hw j x Hj Hx. destruct (decide (j = i)) as [->|Hne].
  - simplify_eq. auto.
  - apply (Hs j); [|done]. by rewrite list_lookup_insert_ne.
Qed.

Lemma settled_insert_not (ts : list wstate) i w' u :
  i < length ts → settled (<[i:=w']> ts) u →
  task_url w' = Some u → w' = Closing u.
Proof.
  intros Hi Hs Hw. apply (Hs i); [|done]. by apply list_lookup_insert_eq.
Qed.

Lemma frontier_ok_reachable U seed s :
  max_requests = None → closed_under_links U seed → links_parse U →
  reachable seed s → frontier_ok seed s.
Proof.
  intros Hmax HU Hparse. revert s.
  apply reachable_inv; [|intros s c s' Hr [] Hc].
  - split; simpl; [right; by left|]. intros u v Hu. set_solver.
  - pose proof (visit_ok_reachable _ _ Hr) as [].
    pose proof (links_ok_reachable _ _ Hr) as [].
    pose proof (universe_ok_reachable (λ u, u ∈ U) _ _
                  (proj1 HU) (proj2 HU) Hr) as [].
    pose proof (ctl_ok_reachable _ _ Hr) as Hctl.
    destruct Hc; split; rewrite ?cancel_all_frame; simpl in *; try done.
    all: try (match goal with Ht : tasks _ !! ?i = Some _
                |- ∀ u v, u ∈ visited_urls _ → settled (<[?i:=?w']> _) u → _ =>
                intros u v Hu Hs He; apply (fr_links0 u v); [done| |done];
                eapply settled_insert; [exact Ht|exact Hs|];
                let Hw := fresh in
                intros Hw; simpl in Hw; simplify_eq;
                pose proof (settled_insert_not _ _ _ _
                              (lookup_lt_Some _ _ _ Ht) Hs eq_refl);
                by simplify_eq end).
    all: try (match goal with Hq : queue_items _ = _ |- _ =>
                rewrite Hq in * end).
    all: unfold budget_reached in *; rewrite ?Hmax in *.
    + destruct fr_seed0 as [?|[?|?]%elem_of_cons]; [by left|done|by right].
    + intros u v Hu Hs He.
      destruct (fr_links0 u v) as [?|[?|?]%elem_of_cons];
        [done| |done|by left|done|by right].
      eapply settled_insert; [done..|]. by simpl.
    + destruct fr_seed0 as [?|[?|?]%elem_of_cons];
        [by left|simplify_eq|by right].
      match goal with Hv : _ ∨ _ |- _ => destruct Hv; [by left|done] end.
    + intros u v Hu Hs He.
      destruct (fr_links0 u v) as [?|[?|?]%elem_of_cons];
        [done..|by left|simplify_eq|by right].
      match goal with Hv : _ ∨ _ |- _ => destruct Hv; [by left|done] end.
    + destruct fr_seed0 as [?|[?|?]%elem_of_cons]; [| |by right];
        left; apply elem_of_union; [by right|left].
      apply elem_of_singleton. by simplify_eq.
    + intros u v Hu Hs He.
      match goal with Ht : tasks _ !! _ = Some Idle |- _ =>
        pose proof (lookup_lt_Some _ _ _ Ht) as Hlen;
        pose proof (settled_insert _ _ _ _ _ Ht Hs) as Hs' end.
      apply elem_of_union in Hu as [->%elem_of_singleton|Hu].
      { by pose proof (settled_insert_not _ _ _ _ Hlen Hs eq_refl). }
      destruct (fr_links0 u v) as [?|[?|?]%elem_of_cons];
        [done|by apply Hs'|done| | |by right];
        left; apply elem_of_union; [by right|left].
      apply elem_of_singleton. by simplify_eq.
    + intros u v Hu Hs He. destruct (decide (u = url)) as [->|Hne].
      { destruct He as [He _]. unfold page_links in He.
        match goal with Ho : outcome _ = _ |- _ => rewrite Ho in He end.
        by apply elem_of_nil in He. }
      apply (fr_links0 u v); [done| |done].
      eapply settled_insert; [done..|]. simpl. congruence.
    + intros u v Hu Hs He. destruct (decide (u = url)) as [->|Hne].
      { destruct He as [He _]. unfold page_links in He.
        match goal with Ho : outcome _ = _ |- _ => rewrite Ho in He end.
        by apply elem_of_nil in He. }
      apply (fr_links0 u v); [done| |done].
      eapply settled_insert; [done..|]. simpl. congruence.
    + destruct fr_seed0; [by left|right]. apply elem_of_app. by left.
    + intros u v Hu Hs He. rewrite elem_of_app.
      destruct (decide (u = url)) as [->|Hne].
      * match goal with Ht : tasks _ !! _ = Some _ |- _ =>
          destruct (lk_extracting0 _ _ _ _ Ht) as [Hl1 Hl2] end.
        destruct (decide (v ∈ visited_urls s)) as [?|Hv]; [by left|].
        right. right. apply list_elem_of_fmap_2.
        destruct He as [He Hn].
        assert (v ∈ order) as Ho.
        { match goal with Hp : _ ≡ₚ _ |- _ => rewrite Hp end.
          apply elem_of_elements.
          destruct (Hl2 v He) as [?|[?|?%elem_of_nil]]; done. }
        apply accepted_complete; [unfold budget_left; by rewrite Hmax| |done..].
        intros w Hw. apply (Hparse url); [by auto|]. apply Hl1. left.
        match goal with Hp : _ ≡ₚ _ |- _ => rewrite Hp in Hw end.
        by apply elem_of_elements in Hw.
      * destruct (fr_links0 u v) as [?|?]; [done| |done|by left|by auto].
        eapply settled_insert; [done..|]. simpl. congruence.
    + intros u v Hu Hs He. apply (fr_links0 u v); [done| |done].
      eapply settled_insert; [done..|]. simpl. congruence.
    + intros u v Hu Hs He. apply (fr_links0 u v); [done| |done].
      intros j w Hj Hw.
      destruct (ctl_joining _ Hctl) as (Hx & _); [done|].
      assert (sum_list (busy1 <$> tasks s) = 0) as Hz by lia.
      apply sum_list_busy_zero in Hz.
      apply (Forall_lookup_1 _ _ _ _ Hz) in Hj. by destruct w.
Qed.


(** Only URLs linked from the seed, over any number of pages, are ever
    visited. *)
Lemma visited_linked seed s v :
  reachable seed s → v ∈ visited_urls s → rtc edge seed v.
Proof.
  intros Hr. apply (universe_ok_reachable (rtc edge seed) seed s); [done| |done].
  intros u w ??. by eapply rtc_r.
Qed.

Lemma discovered_linked seed s v :
  reachable seed s → v ∈ discovered_urls s →
  is_html_page v = true ∧ tc edge seed v ∧ v ≠ seed.
Proof.
  intros Hr Hv. pose proof (links_ok_reachable _ _ Hr) as [].
  apply lk_discovered0 in Hv as [Hh (u & Hu)].
  apply lk_puts0 in Hu as (Hu & He & Hne). split_and!; [done| |done].
  eapply tc_rtc_l; [by eapply visited_linked|by apply tc_once].
Qed.

(** Once [join] has returned without a budget, every URL linked from the
    seed has been visited. *)
Lemma joined_visited U seed s v :
  max_requests = None → closed_under_links U seed → links_parse U →
  reachable seed s → orchestrator s ≠ Joining →
  rtc edge seed v → v ∈ visited_urls s.
Proof.
  intros Hmax HU Hparse Hr Hj.
  pose proof (frontier_ok_reachable _ _ _ Hmax HU Hparse Hr) as [].
  destruct (ctl_joined _ (ctl_ok_reachable _ _ Hr) Hj) as (_ & Hq & Hc & _).
  rewrite Hq in *. revert v.
  apply (rtc_ind_r (λ v, v ∈ visited_urls s)).
  - destruct fr_seed0 as [?|?%elem_of_nil]; done.
  - intros w v _ Hwv IH.
    destruct (fr_links0 w v) as [?|?%elem_of_nil]; [done| |done..].
    intros i x Hi Hx. apply (Forall_lookup_1 _ _ _ _ Hc) in Hi.
    by destruct Hi as [-> | ->].
Qed.

Lemma joined_discovered U seed s v :
  max_requests = None → closed_under_links U seed → links_parse U →
  reachable seed s → orchestrator s ≠ Joining →
  v ∈ discovered_urls s ↔
  is_html_page v = true ∧ tc edge seed v ∧ v ≠ seed.
Proof.
  intros Hmax HU Hparse Hr Hj. split; [by apply discovered_linked|].
  intros (Hh & Ht & Hne). pose proof (links_ok_reachable _ _ Hr) as [].
  apply lk_discovered0. split; [done|].
  destruct (lk_visited0 v) as [?|?]; [|done..].
  eapply joined_visited; [done..|]. by apply tc_rtc.
Qed.

(** With finitely many crawlable URLs, on none of which the browser
    raises, every run ends with [main] returned. *)
Lemma terminates_closed U seed (P : State → Prop) :
  closed_under_links U seed →
  (∀ u, u ∈ U → reliable u) →
  (∀ s, reachable seed s → orchestrator s = Returned → P s) →
  terminates (start seed) P.
Proof.
  intros HU Hrel HP. exists (measure U (start seed)). intros cs s Hrun.
  assert (reachable seed s) as Hr by by exists cs.
  split_and!.
  - pose proof (run_bounded U seed cs _ _ HU (reachable_start seed) Hrun). lia.
  - by apply HP.
  - apply (progress seed); [done|].
    intros u Hu. apply Hrel.
    by apply (un_visited _ _ (universe_ok_reachable (λ u, u ∈ U) _ _
                                (proj1 HU) (proj2 HU) Hr)).
Qed.

End proofs.

(** ** The claims *)

(** Closed facts about the example runs are settled by evaluation. *)
Ltac by_compute :=
  match goal with |- ?P => apply (bool_decide_unpack P); vm_compute; exact I end.

Lemma run_reachable `{env : Env} seed cs s :
  run cs (start seed) = Some s → reachable seed s.
Proof. intros Hrun. by exists cs. Qed.

Lemma same_netloc_parsed `{env : Env} u v :
  same_netloc u v = true →
  ∃ pu pv, urlparse u = Some pu ∧ urlparse v = Some pv ∧
    Urllib.netloc pv = Urllib.netloc pu.
Proof.
  unfold same_netloc. destruct (urlparse v) as [pv|]; [|done].
  destruct (urlparse u) as [pu|]; [|done].
  intros Hn%String.eqb_eq. by exists pu, pv.
Qed.




(** C2 fails on [https://x.test/a.jsp]: the link passes the netloc,
    visited and budget checks and is put on the queue, its path [/a.jsp] ends
    in none of the three extensions, and yet it is not in the final
    Discovered Set.  [is_html_page], described as checking the extension of
    the URL, looks for the text [.js] anywhere in it. *)
Lemma jsp_page_not_discovered :
  @run env_mixed sched_mixed (start seed_x) = Some after_mixed ∧
  orchestrator after_mixed = Returned ∧
  EvPut (Some seed_x) (Some url_jsp) ∈ trace after_mixed ∧
  @asset_path env_mixed url_jsp = false ∧
  url_jsp ∉ discovered_urls after_mixed.
Proof.
  split_and!; [vm_compute; reflexivity|reflexivity|by_compute|reflexivity
              |by_compute].
Qed.

(** The test misjudges in the other direction too: the path of
    [http://x.test/a.j<TAB>s] is [/a.js], which ends in an asset extension,
    and the text of the link holds none of the three, so the link ends up in
    the Discovered Set. *)
Lemma tab_asset_discovered :
  @run env_tab sched_tab (start seed_x) = Some after_tab ∧
  orchestrator after_tab = Returned ∧
  (Urllib.path <$> @urlparse env_tab url_tab) = Some "/a.js" ∧
  @asset_path env_tab url_tab = true ∧
  url_tab ∈ discovered_urls after_tab.
Proof.
  split_and!; [vm_compute; reflexivity|reflexivity|vm_compute; reflexivity
              |reflexivity|by_compute].
Qed.

(** X21: What the Discovered Set holds at any point of a run: a URL is in
    it exactly when it was put on the queue for a page and none of [.js],
    [.css], [.json] occurs anywhere in its text; so no piece of the text of
    a discovered URL ends in one of the three. *)
Theorem discovered_iff_no_extension `{env : Env} seed cs s v :
  run cs (start seed) = Some s →
  (v ∈ discovered_urls s ↔
     is_html_page v = true ∧ ∃ u, EvPut (Some u) (Some v) ∈ trace s) ∧
  (is_html_page v = true ↔
     ∀ ext, ext ∈ extensions_to_ignore →
       ¬ ∃ a b, v = String.append a (String.append ext b)) ∧
  (∀ pth, v ∈ discovered_urls s →
     (∃ a b, v = String.append a (String.append pth b)) →
     existsb (Str.endswith pth) extensions_to_ignore = false).
Proof.
  intros Hr%run_reachable.
  pose proof (links_ok_reachable _ _ Hr) as [].
  split_and!.
  - rewrite lk_discovered0. split; intros [? [u Hu]]; (split; [done|]);
      exists u; by apply elem_of_puts.
  - unfold is_html_page. rewrite negb_true_iff. split.
    + intros Hn ext Hin Hc. apply contains_spec in Hc.
      apply not_true_iff_false in Hn. apply Hn, existsb_exists.
      exists ext. split; [by apply list_elem_of_In|done].
    + intros Hn. apply not_true_is_false.
      intros (ext & Hin & Hc)%existsb_exists.
      apply (Hn ext); [by apply list_elem_of_In|by apply contains_spec].
  - intros pth Hv%lk_discovered0 Hp. apply (is_html_page_path v); tauto.
Qed.

Lemma discovered_iff_no_extension_witness :
  @run env_mixed sched_mixed (start seed_x) = Some after_mixed ∧
  (url_a ∈ discovered_urls after_mixed ↔
     is_html_page url_a = true ∧
     ∃ u, EvPut (Some u) (Some url_a) ∈ trace after_mixed) ∧
  (is_html_page url_a = true ↔
     ∀ ext, ext ∈ extensions_to_ignore →
       ¬ ∃ a b, url_a = String.append a (String.append ext b)) ∧
  (∀ pth, url_a ∈ discovered_urls after_mixed →
     (∃ a b, url_a = String.append a (String.append pth b)) →
     existsb (Str.endswith pth) extensions_to_ignore = false).
Proof.
  assert (@run env_mixed sched_mixed (start seed_x) = Some after_mixed) as Hrun
    by (vm_compute; reflexivity).
  split; [exact Hrun|].
  exact (@discovered_iff_no_extension env_mixed seed_x sched_mixed after_mixed
           url_a Hrun).
Defined.

(** C3, as stated, fails: in a run that ends with [main] returned, no
    sentinel was put on the queue, whereas the claim asks for one per worker,
    ten in all. *)
Lemma no_sentinel_delivered :
  @run env_down sched_down (start seed_x) = Some after_down ∧
  orchestrator after_down = Returned ∧
  sentinels_put (trace after_down) = 0 ∧
  number_of_workers = 10.
Proof. split_and!; [vm_compute; reflexivity|reflexivity..]. Qed.

Lemma sentinels_put_zero (tr : list event) :
  (∀ p, EvPut p None ∉ tr) → sentinels_put tr = 0.
Proof.
  intros Hno. unfold sentinels_put.
  destruct (filter (λ p, p.2 = None) (puts tr)) as [|[p item] l] eqn:Hf;
    [done|].
  assert ((p, item) ∈ filter (λ p, p.2 = None) (puts tr)) as Hin
    by (rewrite Hf; left).
  apply list_elem_of_filter in Hin as [Hnone Hin]. simpl in Hnone. subst.
  by apply elem_of_puts, Hno in Hin.
Qed.

Lemma main_closes_browser `{env : Env} seed s :
  reachable seed s →
  (orchestrator s = ClosingBrowser → browser_open s = true) ∧
  (orchestrator s = Returned →
     browser_open s = false ∧ EvCloseBrowser ∈ trace s).
Proof.
  revert s.
  apply (reachable_inv seed
           (λ s, (orchestrator s = ClosingBrowser → browser_open s = true) ∧
                 (orchestrator s = Returned →
                    browser_open s = false ∧ EvCloseBrowser ∈ trace s)));
    [done|].
  intros s c s' Hr IH Hc.
  destruct (ctl_ok_reachable _ _ Hr) as [_ _ _ Hjoining Hjoined _].
  destruct Hc; rewrite ?cancel_all_frame; simpl.
  all: try (split; intros Ho;
            (destruct Hjoined as (_ & _ & Hall & _); [by rewrite Ho|]);
            match goal with Ht : tasks _ !! _ = Some _ |- _ =>
              apply (Forall_lookup_1 _ _ _ _ Hall) in Ht; by destruct Ht end).
  - split; [intros _|done]. by destruct Hjoining as (_ & _ & ?).
  - exact IH.
  - split; [done|]. intros _. split; [done|]. by left.
Qed.

(** C3, amended: the Orchestrator puts no sentinel on the queue.  When
    [join] returns it calls [cancel()] on each of the ten tasks and goes
    on to [browser.close()] without awaiting them: at that call the browser
    is open and every worker has only been asked to stop, none has ended.
    The workers end, cancelled, while [browser.close()] is pending; it
    returns once none is left, and then the browser is closed and [main]
    returns.  A worker that does dequeue a sentinel marks it done and leaves
    its loop. *)
Theorem shutdown_by_cancel `{env : Env} seed cs s :
  run cs (start seed) = Some s →
  sentinels_put (trace s) = 0 ∧
  (∀ s', orchestrator s = Joining → step Orchestrator s = Some s' →
     orchestrator s' = ClosingBrowser ∧ browser_open s' = true ∧
     Forall (λ w, w = Cancelling) (tasks s') ∧
     ∀ i, i < number_of_workers → EvCancel i ∈ trace s') ∧
  (orchestrator s = ClosingBrowser →
     browser_open s = true ∧
     Forall (λ w, w = Cancelling ∨ w = Cancelled) (tasks s) ∧
     (∀ i order, tasks s !! i = Some Cancelling →
        step (Task i order) s = Some (set_task i Cancelled s)) ∧
     (is_Some (step Orchestrator s) ↔
      Forall (λ w, w = Cancelled) (tasks s))) ∧
  (orchestrator s = Returned →
     browser_open s = false ∧ EvCloseBrowser ∈ trace s ∧
     Forall (λ w, w = Cancelled) (tasks s)) ∧
  (∀ s0 i order q,
     tasks s0 !! i = Some Idle → queue_items s0 = None :: q →
     step (Task i order) s0 =
     Some (set_task i Finished (task_done i (dequeue i None q s0)))).
Proof.
  intros Hr%run_reachable.
  destruct (ctl_ok_reachable _ _ Hr)
    as [Hlen _ Hputs Hjoining Hjoined Hreturned].
  destruct (main_closes_browser seed s Hr) as [Hclosing Hclosed].
  split_and!.
  - by apply sentinels_put_zero.
  - intros s' Ho Hstep.
    pose proof (reachable_step _ _ _ _ Hr Hstep) as Hr'.
    destruct (ctl_ok_reachable _ _ Hr') as [_ _ _ _ Hjoined' _].
    destruct (main_closes_browser seed s' Hr') as [Hclosing' _].
    simpl in Hstep. unfold main_step in Hstep. rewrite Ho in Hstep.
    destruct (unfinished_tasks s =? 0) eqn:Hz; [|done].
    assert (orchestrator s' = ClosingBrowser) as Ho' by (by simplify_eq).
    destruct Hjoined' as (_ & _ & _ & Hev); [by rewrite Ho'|].
    split_and!; [done|by apply Hclosing'| |done].
    destruct (Hjoining Ho) as (Hu & Hf & _).
    apply Nat.eqb_eq in Hz. rewrite Hz in Hu.
    assert (sum_list (busy1 <$> tasks s) = 0) as Hb by lia.
    apply sum_list_busy_zero in Hb.
    assert (tasks s' = cancel_task <$> tasks s) as -> by (by simplify_eq).
    apply Forall_fmap, Forall_forall. intros w Hw.
    rewrite Forall_forall in Hf, Hb.
    destruct (Hf w Hw) as [->|Hbusy]; [done|].
    rewrite (Hb w Hw) in Hbusy. done.
  - intros Ho. destruct Hjoined as (_ & _ & Hall & _); [by rewrite Ho|].
    split_and!.
    + by apply Hclosing.
    + eapply Forall_impl; [exact Hall|]. intros w [?|?]; auto.
    + intros i order Hi. simpl. unfold worker_step. by rewrite Hi.
    + simpl. unfold main_step. rewrite Ho.
      destruct (existsb cancelling (tasks s)) eqn:Hex; split.
      * by intros [? ?].
      * intros Hc. apply existsb_exists in Hex as (w & Hin & Hw).
        apply list_elem_of_In in Hin.
        rewrite Forall_forall in Hc. rewrite (Hc w Hin) in Hw. done.
      * intros _. by apply no_cancelling.
      * by eauto.
  - intros Ho. destruct (Hclosed Ho). split_and!; [done..|]. by apply Hreturned.
  - intros s0 i order q Hi Hq. apply step_segment. by apply seg_sentinel.
Qed.

Lemma shutdown_by_cancel_witness :
  @run env_down (failed_crawl 0) (start seed_x) = Some after_seed_down ∧
  sentinels_put (trace after_seed_down) = 0 ∧
  (∀ s', orchestrator after_seed_down = Joining →
     @step env_down Orchestrator after_seed_down = Some s' →
     orchestrator s' = ClosingBrowser ∧ browser_open s' = true ∧
     Forall (λ w, w = Cancelling) (tasks s') ∧
     ∀ i, i < number_of_workers → EvCancel i ∈ trace s') ∧
  (orchestrator after_seed_down = ClosingBrowser →
     browser_open after_seed_down = true ∧
     Forall (λ w, w = Cancelling ∨ w = Cancelled) (tasks after_seed_down) ∧
     (∀ i order, tasks after_seed_down !! i = Some Cancelling →
        @step env_down (Task i order) after_seed_down
        = Some (set_task i Cancelled after_seed_down)) ∧
     (is_Some (@step env_down Orchestrator after_seed_down) ↔
      Forall (λ w, w = Cancelled) (tasks after_seed_down))) ∧
  (orchestrator after_seed_down = Returned →
     browser_open after_seed_down = false ∧
     EvCloseBrowser ∈ trace after_seed_down ∧
     Forall (λ w, w = Cancelled) (tasks after_seed_down)) ∧
  (∀ s0 i order q,
     tasks s0 !! i = Some Idle → queue_items s0 = None :: q →
     @step env_down (Task i order) s0 =
     Some (set_task i Finished (task_done i (dequeue i None q s0)))).
Proof.
  assert (@run env_down (failed_crawl 0) (start seed_x) = Some after_seed_down)
    as Hrun by (vm_compute; reflexivity).
  split; [exact Hrun|].
  exact (@shutdown_by_cancel env_down seed_x (failed_crawl 0) after_seed_down
           Hrun).
Defined.

(** C4 at [--max-requests 0]: the budget is given and is [0], and the run
    still visits four URLs. *)
Lemma budget_zero_crawls :
  script ["nightcrawler.py"; seed_x; "--max-requests"; "0"]
    = Crawl seed_x (Some 0%Z) None ∧
  @max_requests env_mixed_zero = Some 0%Z ∧
  @run env_mixed_zero sched_mixed (start seed_x) = Some after_mixed_zero ∧
  size (visited_urls after_mixed_zero) = 4.
Proof. split_and!; vm_compute; reflexivity. Qed.

(** X1: For a budget of at least one the bound is exact: no run ever holds more
    visited URLs than the budget. *)
Lemma budget_respected `{env : Env} seed cs s n :
  max_requests = Some n → (0 < n)%Z → run cs (start seed) = Some s →
  (Z.of_nat (size (visited_urls s)) ≤ n)%Z.
Proof.
  intros Hn Hpos Hr%run_reachable.
  by apply (vis_budget _ (visit_ok_reachable _ _ Hr)).
Qed.

(** C5: no URL is crawled twice.  The "Crawling" lines of a run name
    pairwise different URLs, and they are the Visited Set; a task works
    only on a URL that is already in the set, as do the contexts and pages
    of the browser, and two tasks never work on the same URL; taking a queued
    URL that is already visited only removes it from the queue and marks it
    done. *)
Theorem no_url_crawled_twice `{env : Env} seed cs s :
  run cs (start seed) = Some s →
  NoDup (crawl_starts (trace s)) ∧
  (∀ u, u ∈ visited_urls s ↔ u ∈ crawl_starts (trace s)) ∧
  (∀ i w u, tasks s !! i = Some w → task_url w = Some u →
     u ∈ visited_urls s) ∧
  (∀ u, u ∈ open_contexts s ∨ u ∈ open_pages s → u ∈ visited_urls s) ∧
  (∀ i j w w' u, tasks s !! i = Some w → tasks s !! j = Some w' →
     task_url w = Some u → task_url w' = Some u → i = j) ∧
  (∀ i order u q,
     tasks s !! i = Some Idle → queue_items s = Some u :: q →
     u ∈ visited_urls s →
     step (Task i order) s = Some (task_done i (dequeue i (Some u) q s))).
Proof.
  intros Hr%run_reachable. pose proof (visit_ok_reachable _ _ Hr) as [].
  split_and!; [done..|].
  intros i order u q Hi Hq Hu. apply step_segment. apply seg_skip; auto.
Qed.

Lemma no_url_crawled_twice_witness :
  @run env_diamond sched_crawled (start seed_x) = Some crawled_once ∧
  NoDup (crawl_starts (trace crawled_once)) ∧
  (∀ u, u ∈ visited_urls crawled_once
        ↔ u ∈ crawl_starts (trace crawled_once)) ∧
  (∀ i w u, tasks crawled_once !! i = Some w → task_url w = Some u →
     u ∈ visited_urls crawled_once) ∧
  (∀ u, u ∈ open_contexts crawled_once ∨ u ∈ open_pages crawled_once →
     u ∈ visited_urls crawled_once) ∧
  (∀ i j w w' u, tasks crawled_once !! i = Some w →
     tasks crawled_once !! j = Some w' →
     task_url w = Some u → task_url w' = Some u → i = j) ∧
  (∀ i order u q,
     tasks crawled_once !! i = Some Idle →
     queue_items crawled_once = Some u :: q →
     u ∈ visited_urls crawled_once →
     @step env_diamond (Task i order) crawled_once =
     Some (task_done i (dequeue i (Some u) q crawled_once))).
Proof.
  assert (@run env_diamond sched_crawled (start seed_x) = Some crawled_once)
    as Hrun by (vm_compute; reflexivity).
  split; [exact Hrun|].
  exact (@no_url_crawled_twice env_diamond seed_x sched_crawled crawled_once
           Hrun).
Defined.

Lemma links_within_closed `{env : Env} U seed :
  seed ∈ U → links_within U = true → closed_under_links U seed.
Proof.
  intros Hs Hw. split; [done|]. intros u v Hu [Hin Hn].
  unfold links_within in Hw. rewrite forallb_forall in Hw.
  apply list_elem_of_In, Hw in Hu. rewrite forallb_forall in Hu.
  apply list_elem_of_In, Hu in Hin. rewrite Hn in Hin. simpl in Hin.
  by apply bool_decide_eq_true in Hin.
Qed.

Lemma links_parse_check_sound `{env : Env} U :
  links_parse_check U = true → links_parse U.
Proof.
  intros Hc u w Hu Hw. unfold links_parse_check in Hc.
  rewrite forallb_forall in Hc. apply list_elem_of_In, Hc in Hu.
  rewrite forallb_forall in Hu. apply list_elem_of_In, Hu in Hw.
  by apply bool_decide_eq_true in Hw.
Qed.

Lemma ranked_acyclic `{env : Env} rank U seed :
  closed_under_links U seed → ranked rank U = true →
  ∀ u, u ∈ U → ¬ tc edge u u.
Proof.
  intros [_ HU] Hrk.
  assert (∀ u v, u ∈ U → edge u v → rank v < rank u) as Hstep.
  { intros u v Hu [Hin Hn]. unfold ranked in Hrk.
    rewrite forallb_forall in Hrk. apply list_elem_of_In, Hrk in Hu.
    rewrite forallb_forall in Hu. apply list_elem_of_In, Hu in Hin.
    rewrite Hn in Hin. simpl in Hin. by apply Nat.ltb_lt in Hin. }
  assert (∀ u v, tc edge u v → u ∈ U → v ∈ U ∧ rank v < rank u) as Hpath.
  { induction 1 as [u v He|u w v He _ IH]; intros Hu.
    - split; [by eapply HU|by apply Hstep].
    - destruct IH as [? ?]; [by eapply HU|].
      split; [done|]. pose proof (Hstep u w Hu He). lia. }
  intros u Hu Hc. destruct (Hpath u u Hc Hu). lia.
Qed.

(** C6 fails on a site of two pages, the seed and [https://x.test/a.jsp],
    linked from the seed: both have the seed's scheme and netloc, the graph
    is finite and acyclic, no budget is set and the browser never raises.
    The run ends, the linked page is crawled, its path ends in none of the
    asset extensions, and the final Discovered Set does not hold it:
    [is_html_page] finds the text [.js] in the link. *)
Lemma linked_page_not_discovered :
  @max_requests env_jsp = None ∧
  @closed_under_links env_jsp [seed_x; url_jsp] seed_x ∧
  (∀ u, u ∈ [seed_x; url_jsp] → ¬ tc (@edge env_jsp) u u) ∧
  @edge env_jsp seed_x url_jsp ∧
  @scheme_of env_jsp url_jsp = @scheme_of env_jsp seed_x ∧
  @asset_path env_jsp url_jsp = false ∧
  @run env_jsp sched_jsp (start seed_x) = Some after_jsp ∧
  (∀ u, @reliable env_jsp u) ∧
  orchestrator after_jsp = Returned ∧
  url_jsp ∈ visited_urls after_jsp ∧
  discovered_urls after_jsp = ∅.
Proof.
  assert (@closed_under_links env_jsp [seed_x; url_jsp] seed_x) as HU
    by (apply links_within_closed; [by_compute|reflexivity]).
  split_and!.
  - reflexivity.
  - exact HU.
  - by apply (ranked_acyclic rank_x _ seed_x).
  - split; [by_compute|reflexivity].
  - reflexivity.
  - reflexivity.
  - vm_compute; reflexivity.
  - intros u. by split.
  - reflexivity.
  - by_compute.
  - vm_compute; reflexivity.
Qed.

(** C7, as stated, fails: after a response with the header [Server] and
    one with the header [server] the Header Map holds both names, which
    differ only in letter case. *)
Lemma header_keys_differ_in_case :
  record_all [[("Server", "nginx")]; [("server", "apache")]] !! "Server"
    = Some "nginx" ∧
  record_all [[("Server", "nginx")]; [("server", "apache")]] !! "server"
    = Some "apache" ∧
  Str.lower "Server" = Str.lower "server" ∧
  "Server" ≠ "server".
Proof. split_and!; [by_compute..|reflexivity|discriminate]. Qed.

Lemma record_from (rs : list (list (string * string))) m k x :
  foldl (λ m r, handle_response r m) m rs !! k = Some x →
  m !! k = Some x ∨
  ((Str.lower k ∉ ignored_headers) ∧ ∃ r, r ∈ rs ∧ (k, x) ∈ r).
Proof.
  revert m. induction rs as [|r rs IH]; intros m; simpl; [by left|].
  intros [Hk|(Hi & r' & Hr' & Hk)]%IH.
  - apply handle_response_lookup in Hk as [Hk|[Hk Hi]]; [by left|].
    right. split; [done|]. exists r. split; [by left|done].
  - right. split; [done|]. exists r'. split; [by right|done].
Qed.

(** C7, amended: a header is stored under the name the response gives
    it; only the test against the ignore-list lower-cases the name, so that
    test is case-insensitive.  After any sequence of responses every key of
    the Header Map is a delivered name that does not lower-case to an
    ignore-list entry; two keys differing only in letter case are excluded
    only when every delivered name is already in lower case. *)
Theorem header_stored_as_delivered (rs : list (list (string * string))) :
  (∀ h x m,
     handle_response [(h, x)] m =
     if bool_decide (Str.lower h ∈ ignored_headers) then m else <[h:=x]> m) ∧
  (∀ k x, record_all rs !! k = Some x →
     (Str.lower k ∉ ignored_headers) ∧ ∃ r, r ∈ rs ∧ (k, x) ∈ r) ∧
  ((∀ r h x, r ∈ rs → (h, x) ∈ r → Str.lower h = h) →
   ∀ k1 k2, is_Some (record_all rs !! k1) → is_Some (record_all rs !! k2) →
     Str.lower k1 = Str.lower k2 → k1 = k2).
Proof.
  assert (∀ k x, record_all rs !! k = Some x →
            (Str.lower k ∉ ignored_headers) ∧ ∃ r, r ∈ rs ∧ (k, x) ∈ r) as Hkeys.
  { intros k x [Hk|?]%record_from; [|done]. by rewrite lookup_empty in Hk. }
  split_and!; [done|done|].
  intros Hlow k1 k2 [x1 H1] [x2 H2] Heq.
  destruct (Hkeys _ _ H1) as (_ & r1 & ? & ?).
  destruct (Hkeys _ _ H2) as (_ & r2 & ? & ?).
  rewrite <-(Hlow r1 k1 x1), <-(Hlow r2 k2 x2); done.
Qed.

(** C8, as stated, fails: when the crawl of the seed has ended in the
    [except] clause and the worker is back in [url_queue.get()], the page is
    closed but the browsing context made for the seed is still open. *)
Lemma context_left_open :
  @run env_down (failed_crawl 0) (start seed_x) = Some after_seed_down ∧
  tasks after_seed_down !! 0 = Some Idle ∧
  EvTaskDone 0 ∈ trace after_seed_down ∧
  open_pages after_seed_down = [] ∧
  open_contexts after_seed_down = [seed_x] ∧
  browser_open after_seed_down = true.
Proof.
  split_and!; [vm_compute; reflexivity|reflexivity|by_compute|reflexivity..].
Qed.

(** C8, amended: on every exit path of [crawl_page] the page is closed
    before the worker proceeds: the open pages are exactly those of the
    tasks between [new_page] and [page.close()], one page each, so no page
    is open when no task is between the two.  The browsing context is not
    released by [crawl_page]: the context made for a URL stays open for as
    long as the browser does. *)
Theorem page_closed_context_kept `{env : Env} seed cs s :
  run cs (start seed) = Some s →
  NoDup (open_pages s) ∧
  (∀ u, u ∈ open_pages s ↔
     ∃ i w, tasks s !! i = Some w ∧ page_of w = Some u) ∧
  (Forall (λ w, page_of w = None) (tasks s) → open_pages s = []) ∧
  (browser_open s = true →
   ∀ u, u ∈ visited_urls s →
     (∃ i, tasks s !! i = Some (Opening u)) ∨ u ∈ open_contexts s).
Proof.
  intros Hr%run_reachable. pose proof (browser_ok_reachable _ _ Hr) as [].
  split_and!; [done..| |done].
  intros Hall. destruct (open_pages s) as [|u l] eqn:Hp; [done|].
  destruct (proj1 (br_pages0 u)) as (i & w & Hi & Hw); [left|].
  apply (Forall_lookup_1 _ _ _ _ Hall) in Hi. congruence.
Qed.

Lemma page_closed_context_kept_witness :
  @run env_down (failed_crawl 0) (start seed_x) = Some after_seed_down ∧
  NoDup (open_pages after_seed_down) ∧
  (∀ u, u ∈ open_pages after_seed_down ↔
     ∃ i w, tasks after_seed_down !! i = Some w ∧ page_of w = Some u) ∧
  (Forall (λ w, page_of w = None) (tasks after_seed_down) →
     open_pages after_seed_down = []) ∧
  (browser_open after_seed_down = true →
   ∀ u, u ∈ visited_urls after_seed_down →
     (∃ i, tasks after_seed_down !! i = Some (Opening u))
     ∨ u ∈ open_contexts after_seed_down).
Proof.
  assert (@run env_down (failed_crawl 0) (start seed_x) = Some after_seed_down)
    as Hrun by (vm_compute; reflexivity).
  split; [exact Hrun|].
  exact (@page_closed_context_kept env_down seed_x (failed_crawl 0)
           after_seed_down Hrun).
Defined.

Lemma no_edge_from_failed `{env : Env} seed v :
  outcome (web seed) = NavError → ¬ edge seed v.
Proof.
  intros Hnav [Hin _]. unfold page_links in Hin. rewrite Hnav in Hin.
  by apply elem_of_nil in Hin.
Qed.

(** C9, as stated, fails: the seed answers with one response and then
    its load raises.  The run ends with [main] returned and an empty
    Discovered Set, but the Header Map holds the header of that response. *)
Lemma headers_before_failure :
  outcome (@web env_late seed_x) = NavError ∧
  @run env_late sched_late (start seed_x) = Some after_late ∧
  orchestrator after_late = Returned ∧
  discovered_urls after_late = ∅ ∧
  response_headers after_late !! "Server" = Some "nginx" ∧
  response_headers after_late ≠ ∅.
Proof.
  split_and!; [reflexivity|vm_compute; reflexivity|reflexivity
              |vm_compute; reflexivity|by_compute|].
  intros Hempty.
  assert (response_headers after_late !! "Server" = Some "nginx") as Hs
    by by_compute.
  rewrite Hempty in Hs. by rewrite lookup_empty in Hs.
Qed.

(** C9, amended: if the load of the seed raises and the browser raises
    neither when it opens nor when it closes the page of the seed, every run
    of the crawl ends with [main] returned, the queue drained and the
    Discovered Set empty; the Header Map then holds only headers of the
    responses received for the seed before the failure, none of them on the
    ignore-list, and is empty when there was no response.  The script then
    ends with status 0 if its output is delivered and with status 1 if
    not. *)
Theorem seed_failure_ends_crawl `{env : Env} (int : string → option Z)
    argv seed budget out :
  script_with int argv = Crawl seed budget out →
  max_requests = budget →
  outcome (web seed) = NavError →
  reliable seed →
  terminates (start seed)
    (λ s, discovered_urls s = ∅ ∧ queue_items s = [] ∧
          (∀ k x, response_headers s !! k = Some x →
             (Str.lower k ∉ ignored_headers) ∧
             ∃ r, r ∈ responses (web seed) ∧ (k, x) ∈ r) ∧
          (responses (web seed) = [] → response_headers s = ∅)) ∧
  exit_status (script_with int argv) true = 0%Z ∧
  exit_status (script_with int argv) false = 1%Z.
Proof.
  intros Hargv _ Hnav Hrel. split; [|by rewrite Hargv].
  apply (terminates_closed [seed]).
  { split; [by apply list_elem_of_singleton|].
    intros u v ->%list_elem_of_singleton He.
    by apply no_edge_from_failed in He. }
  { by intros u ->%list_elem_of_singleton. }
  intros s Hr Hret.
  assert (∀ u, u ∈ visited_urls s → u = seed) as Hvis.
  { intros u Hu. apply (visited_linked seed) in Hu; [|done].
    apply rtc_inv in Hu as [->|(x' & Hx & _)]; [done|].
    by apply no_edge_from_failed in Hx. }
  assert (∀ k x, response_headers s !! k = Some x →
            (Str.lower k ∉ ignored_headers) ∧
            ∃ r, r ∈ responses (web seed) ∧ (k, x) ∈ r) as Hkeys.
  { intros k x Hk.
    destruct (hd_keys _ (headers_ok_reachable _ _ Hr) k x Hk)
      as (? & u & r & Hu & Hin & ?).
    apply Hvis in Hu as ->. eauto. }
  split_and!.
  - apply elem_of_equiv_empty_L. intros v Hv.
    apply (discovered_linked seed) in Hv as (_ & Ht & _); [|done].
    assert (∃ x, edge seed x) as [x Hx]
      by (inversion Ht; subst; eauto).
    by apply no_edge_from_failed in Hx.
  - destruct (ctl_joined _ (ctl_ok_reachable _ _ Hr)) as (_ & ? & _); [|done].
    by rewrite Hret.
  - done.
  - intros Hresp. apply map_empty. intros k.
    destruct (response_headers s !! k) as [x|] eqn:Hk; [|done].
    destruct (Hkeys k x Hk) as (_ & r & Hin & _).
    rewrite Hresp in Hin. by apply elem_of_nil in Hin.
Qed.

Lemma seed_failure_ends_crawl_witness :
  script_with python_int ["nightcrawler.py"; seed_x] = Crawl seed_x None None ∧
  @max_requests env_late = None ∧
  outcome (@web env_late seed_x) = NavError ∧
  @reliable env_late seed_x ∧
  @terminates env_late (start seed_x)
    (λ s, discovered_urls s = ∅ ∧ queue_items s = [] ∧
          (∀ k x, response_headers s !! k = Some x →
             (Str.lower k ∉ ignored_headers) ∧
             ∃ r, r ∈ responses (@web env_late seed_x) ∧ (k, x) ∈ r) ∧
          (responses (@web env_late seed_x) = [] → response_headers s = ∅)) ∧
  exit_status (script_with python_int ["nightcrawler.py"; seed_x]) true = 0%Z ∧
  exit_status (script_with python_int ["nightcrawler.py"; seed_x]) false
    = 1%Z.
Proof.
  assert (@reliable env_late seed_x) as Hrel by (by split).
  split; [reflexivity|]. split; [reflexivity|]. split; [reflexivity|].
  split; [exact Hrel|].
  exact (@seed_failure_ends_crawl env_late python_int
           ["nightcrawler.py"; seed_x] seed_x None None eq_refl eq_refl
           eq_refl Hrel).
Defined.

(** C10: the queue does not deduplicate.  In this run of the site where
    [p] and [q] both link to [r], [r] is put on the queue while it is not
    yet visited, and put a second time while the first copy is still queued;
    [r] is crawled once; the task that takes the second copy finds [r]
    visited and only marks the item done; and every put of the run, the
    duplicate included, is matched by one [task_done]. *)
Theorem queue_holds_duplicates :
  @run env_diamond sched_first_put (start seed_x) = Some first_put ∧
  queue_items first_put = [Some url_r] ∧
  (url_r ∉ visited_urls first_put) ∧
  @step env_diamond (Task 2 [url_r]) first_put = Some second_put ∧
  queue_items second_put = [Some url_r; Some url_r] ∧
  puts (trace second_put) =
    [(Some url_q, Some url_r); (Some url_p, Some url_r);
     (Some seed_x, Some url_q); (Some seed_x, Some url_p);
     (None, Some seed_x)] ∧
  @run env_diamond sched_crawled (start seed_x) = Some crawled_once ∧
  url_r ∈ visited_urls crawled_once ∧
  queue_items crawled_once = [Some url_r] ∧
  @step env_diamond (Task 4 []) crawled_once =
    Some (task_done 4 (dequeue 4 (Some url_r) [] crawled_once)) ∧
  @run env_diamond sched_diamond (start seed_x) = Some after_diamond ∧
  orchestrator after_diamond = Returned ∧
  occurrences (EvCrawling url_r) (trace after_diamond) = 1 ∧
  occurrences (EvGet 3 (Some url_r)) (trace after_diamond) = 1 ∧
  occurrences (EvGet 4 (Some url_r)) (trace after_diamond) = 1 ∧
  length (puts (trace after_diamond)) = 5 ∧
  length (task_dones (trace after_diamond)) = 5.
Proof.
  split_and!; try (vm_compute; reflexivity); try by_compute.
Qed.

(** ** Further properties of the crawl *)

Lemma budget_respected_witness :
  @max_requests env_mixed_two = Some 2%Z ∧
  (0 < 2)%Z ∧
  @run env_mixed_two sched_mixed_two (start seed_x) = Some after_mixed_two ∧
  (Z.of_nat (size (visited_urls after_mixed_two)) ≤ 2)%Z.
Proof.
  assert (@run env_mixed_two sched_mixed_two (start seed_x)
          = Some after_mixed_two) as Hrun by (vm_compute; reflexivity).
  split; [reflexivity|]. split; [lia|]. split; [exact Hrun|].
  exact (@budget_respected env_mixed_two seed_x sched_mixed_two
           after_mixed_two 2%Z eq_refl ltac:(lia) Hrun).
Defined.

Lemma segment_visited `{env : Env} c s s' :
  segment c s s' →
  visited_urls s' = visited_urls s ∨
  ∃ i order url q,
    c = Task i order ∧ queue_items s = Some url :: q ∧
    (url ∉ visited_urls s) ∧ budget_reached (visited_urls s) = false ∧
    visited_urls s' = {[url]} ∪ visited_urls s.
Proof.
  intros Hc. destruct Hc; rewrite ?cancel_all_frame; simpl; try by left.
  right. by exists i, order, url, q.
Qed.

(** X2: Once the Visited Set holds as many URLs as a positive budget allows
    it is frozen: no segment adds a URL, and a task that takes a URL off the
    queue drops it and marks it done. *)
Theorem spent_budget_freezes `{env : Env} s n :
  max_requests = Some n → (0 < n)%Z →
  Z.of_nat (size (visited_urls s)) = n →
  (∀ c s', step c s = Some s' → visited_urls s' = visited_urls s) ∧
  (∀ i order u q,
     tasks s !! i = Some Idle → queue_items s = Some u :: q →
     step (Task i order) s = Some (task_done i (dequeue i (Some u) q s))).
Proof.
  intros Hn Hpos Hsize.
  assert (budget_reached (visited_urls s) = true) as Hb.
  { unfold budget_reached. rewrite Hn, Hsize.
    rewrite Z.leb_refl, andb_true_r. apply negb_true_iff, Z.eqb_neq. lia. }
  split.
  - intros c s' Hc%step_segment.
    destruct (segment_visited _ _ _ Hc) as [?|(? & ? & ? & ? & _ & _ & _ & Hf & _)];
      [done|congruence].
  - intros i order u q Hi Hq. apply step_segment. apply seg_skip; auto.
Qed.

Lemma spent_budget_freezes_witness :
  @max_requests env_mixed_two = Some 2%Z ∧
  (0 < 2)%Z ∧
  Z.of_nat (size (visited_urls budget_spent)) = 2%Z ∧
  queue_items budget_spent = [Some url_jsp; Some url_js] ∧
  (∀ c s', @step env_mixed_two c budget_spent = Some s' →
     visited_urls s' = visited_urls budget_spent) ∧
  (∀ i order u q,
     tasks budget_spent !! i = Some Idle →
     queue_items budget_spent = Some u :: q →
     @step env_mixed_two (Task i order) budget_spent
     = Some (task_done i (dequeue i (Some u) q budget_spent))).
Proof.
  assert (Z.of_nat (size (visited_urls budget_spent)) = 2%Z) as Hsize
    by (vm_compute; reflexivity).
  split; [reflexivity|]. split; [lia|]. split; [exact Hsize|].
  split; [vm_compute; reflexivity|].
  exact (@spent_budget_freezes env_mixed_two budget_spent 2%Z eq_refl
           ltac:(lia) Hsize).
Defined.

Lemma negative_budget_reached `{env : Env} n V :
  max_requests = Some n → (n < 0)%Z → budget_reached V = true.
Proof.
  intros Hn Hneg. unfold budget_reached. rewrite Hn.
  apply andb_true_iff. split; [apply negb_true_iff, Z.eqb_neq|apply Z.leb_le];
    lia.
Qed.

Lemma negative_budget_visited `{env : Env} seed s n :
  max_requests = Some n → (n < 0)%Z → reachable seed s → visited_urls s = ∅.
Proof.
  intros Hn Hneg. revert s.
  apply (reachable_inv seed (λ s, visited_urls s = ∅)); [done|].
  intros s c s' _ IH Hc.
  destruct (segment_visited _ _ _ Hc) as [->|(? & ? & ? & ? & _ & _ & _ & Hf & _)];
    [done|].
  by rewrite (negative_budget_reached n) in Hf.
Qed.

(** X3: With a negative budget ([int] accepts a sign) nothing is crawled: in
    every state of every run the Visited Set, the Discovered Set and the
    Header Map are empty and no "Crawling" line has been printed. *)
Theorem negative_budget_crawls_nothing `{env : Env} seed cs s n :
  max_requests = Some n → (n < 0)%Z →
  run cs (start seed) = Some s →
  visited_urls s = ∅ ∧ discovered_urls s = ∅ ∧ response_headers s = ∅ ∧
  crawl_starts (trace s) = [].
Proof.
  intros Hn Hneg Hr%run_reachable.
  pose proof (negative_budget_visited seed s n Hn Hneg Hr) as Hv.
  destruct (links_ok_reachable _ _ Hr) as [_ lk_puts0 lk_discovered0 _ _ _ _].
  destruct (visit_ok_reachable _ _ Hr) as [_ vis_trace0 _ _ _ _].
  split_and!; [done| | |].
  - apply elem_of_equiv_empty_L. intros v (_ & u & Hu)%lk_discovered0.
    apply lk_puts0 in Hu as (Hu & _). rewrite Hv in Hu. set_solver.
  - apply map_empty. intros k.
    destruct (response_headers s !! k) as [x|] eqn:Hk; [|done].
    destruct (hd_keys _ (headers_ok_reachable _ _ Hr) k x Hk)
      as (_ & u & r & Hu & _). rewrite Hv in Hu. set_solver.
  - destruct (crawl_starts (trace s)) as [|u l] eqn:Hc; [done|].
    assert (u ∈ visited_urls s) as Hu by (apply vis_trace0; left).
    rewrite Hv in Hu. set_solver.
Qed.

Lemma negative_budget_crawls_nothing_witness :
  @max_requests env_mixed_negative = Some (-1)%Z ∧
  (-1 < 0)%Z ∧
  @run env_mixed_negative sched_dropped (start seed_x) = Some after_dropped ∧
  visited_urls after_dropped = ∅ ∧ discovered_urls after_dropped = ∅ ∧
  response_headers after_dropped = ∅ ∧
  crawl_starts (trace after_dropped) = [].
Proof.
  assert (@run env_mixed_negative sched_dropped (start seed_x)
          = Some after_dropped) as Hrun by (vm_compute; reflexivity).
  split; [reflexivity|]. split; [lia|]. split; [exact Hrun|].
  exact (@negative_budget_crawls_nothing env_mixed_negative seed_x
           sched_dropped after_dropped (-1)%Z eq_refl ltac:(lia) Hrun).
Defined.

(** X5: The seed is put on the queue by [main] only and is never added to
    the Discovered Set, even when a crawled page links back to it. *)
Theorem seed_never_discovered `{env : Env} seed cs s :
  run cs (start seed) = Some s →
  (seed ∉ discovered_urls s) ∧
  (∀ p, EvPut p (Some seed) ∈ trace s → p = None).
Proof.
  intros Hr%run_reachable.
  destruct (links_ok_reachable _ _ Hr) as [_ lk_puts0 lk_discovered0 _ _ _ _].
  split.
  - intros (_ & u & Hu)%lk_discovered0.
    by apply lk_puts0 in Hu as (_ & _ & ?).
  - intros [u|] Hp%elem_of_puts; [|done].
    by apply lk_puts0 in Hp as (_ & _ & ?).
Qed.

Lemma seed_never_discovered_witness :
  @run env_cycle sched_cycle (start seed_x) = Some after_cycle ∧
  seed_x ∈ @page_links env_cycle url_p ∧
  url_p ∈ visited_urls after_cycle ∧
  (seed_x ∉ discovered_urls after_cycle) ∧
  (∀ p, EvPut p (Some seed_x) ∈ trace after_cycle → p = None).
Proof.
  assert (@run env_cycle sched_cycle (start seed_x) = Some after_cycle)
    as Hrun by (vm_compute; reflexivity).
  split; [exact Hrun|]. split; [by_compute|]. split; [by_compute|].
  exact (@seed_never_discovered env_cycle seed_x sched_cycle after_cycle Hrun).
Defined.

(** X6: On a site with finitely many crawlable URLs whose links all parse,
    cycles allowed, on none of which the browser raises when it opens or
    closes a page, and without a budget, every run ends with [main]
    returned; the Visited Set is then the set of the URLs linked from the
    seed over any number of same-netloc links, and the Discovered Set holds
    those of them, the seed apart, in which no listed extension occurs. *)
Theorem crawl_of_finite_site `{env : Env} (U : list string) seed :
  max_requests = None →
  closed_under_links U seed →
  links_parse U →
  (∀ u, u ∈ U → reliable u) →
  terminates (start seed)
    (λ s, (∀ v, v ∈ visited_urls s ↔ rtc edge seed v) ∧
          (∀ v, v ∈ discovered_urls s ↔
                is_html_page v = true ∧ tc edge seed v ∧ v ≠ seed)).
Proof.
  intros Hmax HU Hparse Hrel. apply (terminates_closed U); [done..|].
  intros s Hr Hret.
  assert (orchestrator s ≠ Joining) as Hj by (by rewrite Hret).
  split; intros v.
  - split; [by apply (visited_linked seed s v)|by apply (joined_visited U seed)].
  - by apply (joined_discovered U seed).
Qed.

Lemma crawl_of_finite_site_witness :
  @max_requests env_cycle = None ∧
  @closed_under_links env_cycle [seed_x; url_p] seed_x ∧
  @links_parse env_cycle [seed_x; url_p] ∧
  (∀ u, u ∈ [seed_x; url_p] → @reliable env_cycle u) ∧
  @terminates env_cycle (start seed_x)
    (λ s, (∀ v, v ∈ visited_urls s ↔ rtc (@edge env_cycle) seed_x v) ∧
          (∀ v, v ∈ discovered_urls s ↔
                is_html_page v = true ∧ tc (@edge env_cycle) seed_x v
                ∧ v ≠ seed_x)).
Proof.
  assert (@closed_under_links env_cycle [seed_x; url_p] seed_x) as HU
    by (apply links_within_closed; [by_compute|reflexivity]).
  assert (@links_parse env_cycle [seed_x; url_p]) as Hparse
    by (apply links_parse_check_sound; reflexivity).
  assert (∀ u, u ∈ [seed_x; url_p] → @reliable env_cycle u) as Hrel
    by (intros u _; by split).
  split; [reflexivity|]. split; [exact HU|]. split; [exact Hparse|].
  split; [exact Hrel|].
  exact (@crawl_of_finite_site env_cycle [seed_x; url_p] seed_x eq_refl HU
           Hparse Hrel).
Defined.

(** X7: While [main] waits in [join], it can go on exactly when the queue is
    empty and every worker is waiting in [url_queue.get()]: no URL is queued
    or being crawled when [join] returns. *)
Theorem join_returns_when_idle `{env : Env} seed cs s :
  run cs (start seed) = Some s → orchestrator s = Joining →
  (is_Some (step Orchestrator s) ↔
   queue_items s = [] ∧ Forall (λ w, w = Idle) (tasks s)).
Proof.
  intros Hr%run_reachable Ho.
  destruct (ctl_joining _ (ctl_ok_reachable _ _ Hr) Ho) as (Hu & Hf & _).
  simpl. unfold main_step. rewrite Ho.
  destruct (Nat.eqb_spec (unfinished_tasks s) 0) as [Hz|Hnz].
  - split; [intros _|by eauto]. rewrite Hz in Hu.
    assert (length (queue_items s) = 0) as Hq by lia.
    assert (sum_list (busy1 <$> tasks s) = 0) as Hb by lia.
    split; [by destruct (queue_items s)|].
    apply sum_list_busy_zero in Hb. apply Forall_forall. intros w Hw.
    rewrite Forall_forall in Hf, Hb.
    destruct (Hf w Hw) as [?|Hbusy]; [done|]. rewrite (Hb w Hw) in Hbusy. done.
  - split; [by intros [? ?]|]. intros [Hq Hall]. exfalso. apply Hnz.
    rewrite Hu, Hq. simpl. clear -Hall.
    induction Hall as [|w ts -> _ IH]; csimpl; [done|]. exact IH.
Qed.

Lemma join_returns_when_idle_witness :
  @run env_down (failed_crawl 0) (start seed_x) = Some after_seed_down ∧
  orchestrator after_seed_down = Joining ∧
  (is_Some (@step env_down Orchestrator after_seed_down) ↔
   queue_items after_seed_down = []
   ∧ Forall (λ w, w = Idle) (tasks after_seed_down)).
Proof.
  assert (@run env_down (failed_crawl 0) (start seed_x) = Some after_seed_down)
    as Hrun by (vm_compute; reflexivity).
  split; [exact Hrun|]. split; [reflexivity|].
  exact (@join_returns_when_idle env_down seed_x (failed_crawl 0)
           after_seed_down Hrun eq_refl).
Defined.

Lemma returned_browser_closed `{env : Env} seed s :
  reachable seed s → orchestrator s = Returned →
  browser_open s = false ∧ open_contexts s = [] ∧ open_pages s = [].
Proof.
  revert s.
  apply (reachable_inv seed
           (λ s, orchestrator s = Returned →
                 browser_open s = false ∧ open_contexts s = []
                 ∧ open_pages s = [])); [done|].
  intros s c s' Hr IH Hc.
  destruct (ctl_ok_reachable _ _ Hr) as [_ _ _ _ _ Hreturned].
  destruct Hc; rewrite ?cancel_all_frame; simpl; try done.
  all: intros Hret;
    match goal with Ht : tasks _ !! _ = Some _ |- _ =>
      apply (Forall_lookup_1 _ _ _ _ (Hreturned Hret)) in Ht; discriminate
    end.
Qed.

(** X8: When [main] has returned the crawl is over: the browser is closed
    with no context or page left open, the queue is empty with every item
    marked done, every worker task is cancelled, and no segment of any task
    can run. *)
Theorem returned_is_final `{env : Env} seed cs s :
  run cs (start seed) = Some s → orchestrator s = Returned →
  browser_open s = false ∧ open_contexts s = [] ∧ open_pages s = [] ∧
  queue_items s = [] ∧ unfinished_tasks s = 0 ∧
  Forall (λ w, w = Cancelled) (tasks s) ∧
  (∀ c, step c s = None).
Proof.
  intros Hr%run_reachable Hret.
  destruct (returned_browser_closed seed s Hr Hret) as (? & ? & ?).
  destruct (ctl_joined _ (ctl_ok_reachable _ _ Hr)) as (? & ? & _);
    [by rewrite Hret|].
  pose proof (ctl_returned _ (ctl_ok_reachable _ _ Hr) Hret) as Hall.
  split_and!; [done..|].
  intros [i order|]; simpl.
  - unfold worker_step. destruct (tasks s !! i) as [w|] eqn:Hi; [|done].
    apply (Forall_lookup_1 _ _ _ _ Hall) in Hi. by subst.
  - unfold main_step. by rewrite Hret.
Qed.

Lemma returned_is_final_witness :
  @run env_mixed sched_mixed (start seed_x) = Some after_mixed ∧
  orchestrator after_mixed = Returned ∧
  browser_open after_mixed = false ∧ open_contexts after_mixed = [] ∧
  open_pages after_mixed = [] ∧
  queue_items after_mixed = [] ∧ unfinished_tasks after_mixed = 0 ∧
  Forall (λ w, w = Cancelled) (tasks after_mixed) ∧
  (∀ c, @step env_mixed c after_mixed = None).
Proof.
  assert (@run env_mixed sched_mixed (start seed_x) = Some after_mixed) as Hrun
    by (vm_compute; reflexivity).
  split; [exact Hrun|]. split; [reflexivity|].
  exact (@returned_is_final env_mixed seed_x sched_mixed after_mixed Hrun
           eq_refl).
Defined.

(** X9: The crawl does not deadlock as long as the browser raises on no
    visited URL when it opens or closes a page: whatever the site and the
    budget, in every such state a run reaches before [main] has returned,
    some task or [main] itself can run its next segment. *)
Theorem crawl_never_deadlocks `{env : Env} seed cs s :
  run cs (start seed) = Some s →
  (∀ u, u ∈ visited_urls s → reliable u) →
  orchestrator s ≠ Returned →
  ∃ c, is_Some (step c s).
Proof. intros Hr%run_reachable ??. by apply (progress seed). Qed.

Lemma crawl_never_deadlocks_witness :
  @run env_diamond sched_second_put (start seed_x) = Some second_put ∧
  (∀ u, u ∈ visited_urls second_put → @reliable env_diamond u) ∧
  orchestrator second_put ≠ Returned ∧
  ∃ c, is_Some (@step env_diamond c second_put).
Proof.
  assert (@run env_diamond sched_second_put (start seed_x) = Some second_put)
    as Hrun by (vm_compute; reflexivity).
  assert (∀ u, u ∈ visited_urls second_put → @reliable env_diamond u) as Hrel
    by (intros u _; by split).
  assert (orchestrator second_put ≠ Returned) as Hne by (vm_compute; discriminate).
  split; [exact Hrun|]. split; [exact Hrel|]. split; [exact Hne|].
  exact (@crawl_never_deadlocks env_diamond seed_x sched_second_put second_put
           Hrun Hrel Hne).
Defined.

Lemma handle_response_keeps r m k :
  is_Some (m !! k) → is_Some (handle_response r m !! k).
Proof.
  unfold handle_response. revert m.
  induction r as [|[h v] r IH]; intros m Hk; simpl; [done|].
  apply IH. case_bool_decide; [done|]. simpl.
  destruct (decide (h = k)) as [->|Hne].
  - rewrite lookup_insert_eq. by eexists.
  - by rewrite lookup_insert_ne.
Qed.

Lemma segment_grows `{env : Env} c s s' :
  segment c s s' →
  visited_urls s ⊆ visited_urls s' ∧
  discovered_urls s ⊆ discovered_urls s' ∧
  (∀ k, is_Some (response_headers s !! k) →
        is_Some (response_headers s' !! k)) ∧
  trace s `suffix_of` trace s'.
Proof.
  intros Hc.
  destruct Hc; rewrite ?cancel_all_frame; simpl; split_and!; try done;
    try (by apply union_subseteq_r);
    try (by apply suffix_cons_r);
    try (by do 2 apply suffix_cons_r);
    try (by do 3 apply suffix_cons_r);
    try (by apply suffix_app_r).
  - intros k. apply handle_response_keeps.
  - rewrite app_assoc. by apply suffix_app_r.
Qed.

(** X10: Nothing a run has recorded is ever taken back: along any schedule,
    from any state, the Visited Set and the Discovered Set only grow, a
    header name stays in the Header Map once it is there, and the trace is
    only extended. *)
Theorem run_only_grows `{env : Env} cs s s' :
  run cs s = Some s' →
  visited_urls s ⊆ visited_urls s' ∧
  discovered_urls s ⊆ discovered_urls s' ∧
  (∀ k, is_Some (response_headers s !! k) →
        is_Some (response_headers s' !! k)) ∧
  trace s `suffix_of` trace s'.
Proof.
  revert s. induction cs as [|c cs IH]; intros s; simpl.
  - intros ?; by simplify_eq.
  - destruct (step c s) as [s1|] eqn:Hc; [|done]. intros Hrun.
    apply step_segment, segment_grows in Hc as (Hv & Hd & Hh & Ht).
    destruct (IH _ Hrun) as (Hv' & Hd' & Hh' & Ht').
    split_and!; [by etrans|by etrans|by auto|by etrans].
Qed.

Lemma run_only_grows_witness :
  @run env_diamond
    ([Task 2 [url_r]; Task 1 []; Task 2 []] ++ replicate 5 (Task 3 []))
    first_put = Some crawled_once ∧
  visited_urls first_put ⊆ visited_urls crawled_once ∧
  discovered_urls first_put ⊆ discovered_urls crawled_once ∧
  (∀ k, is_Some (response_headers first_put !! k) →
        is_Some (response_headers crawled_once !! k)) ∧
  trace first_put `suffix_of` trace crawled_once.
Proof.
  assert (@run env_diamond ([Task 2 [url_r]; Task 1 []; Task 2 []]
                            ++ replicate 5 (Task 3 [])) first_put
          = Some crawled_once) as Hrun by (vm_compute; reflexivity).
  split; [exact Hrun|].
  exact (@run_only_grows env_diamond _ first_put crawled_once Hrun).
Defined.

Lemma same_netloc_trans `{env : Env} a b c :
  same_netloc a b = true → same_netloc b c = true → same_netloc a c = true.
Proof.
  unfold same_netloc.
  destruct (urlparse a) as [pa|], (urlparse b) as [pb|], (urlparse c) as [pc|];
    try done.
  intros H1%String.eqb_eq H2%String.eqb_eq. apply String.eqb_eq. congruence.
Qed.

Lemma linked_same_netloc `{env : Env} seed v :
  rtc edge seed v → v = seed ∨ same_netloc seed v = true.
Proof.
  revert v. apply (rtc_ind_r (λ v, v = seed ∨ same_netloc seed v = true));
    [by left|].
  intros w v _ [_ Hwv] [->|Hw]; right; [done|].
  by apply (same_netloc_trans seed w v).
Qed.

(** X11: The crawl stays on the seed's netloc: every URL that is visited,
    discovered or waiting on the queue is the seed itself or parses to the
    same netloc as the seed. *)
Theorem crawl_stays_on_netloc `{env : Env} seed cs s v :
  run cs (start seed) = Some s →
  v ∈ visited_urls s ∨ v ∈ discovered_urls s ∨ Some v ∈ queue_items s →
  v = seed ∨
  ∃ ps pv, urlparse seed = Some ps ∧ urlparse v = Some pv ∧
    Urllib.netloc pv = Urllib.netloc ps.
Proof.
  intros Hr%run_reachable Hv.
  assert (rtc edge seed v) as Hl.
  { destruct (links_ok_reachable _ _ Hr) as [_ Hputs _ Hqueue _ _ _].
    destruct Hv as [Hv|[Hv|Hv]].
    - by apply (visited_linked seed s v).
    - apply (discovered_linked seed s v) in Hv as (_ & ? & _); [|done].
      by apply tc_rtc.
    - destruct (Hqueue v Hv) as [->|(u & Hu)]; [done|].
      apply Hputs in Hu as (Hu & He & _).
      eapply rtc_r; [by apply (visited_linked seed s u)|done]. }
  destruct (linked_same_netloc seed v Hl) as [?|Hn]; [by left|right].
  by apply same_netloc_parsed.
Qed.

Lemma crawl_stays_on_netloc_witness :
  @run env_mixed sched_mixed (start seed_x) = Some after_mixed ∧
  (url_jsp ∈ visited_urls after_mixed ∨ url_jsp ∈ discovered_urls after_mixed
   ∨ Some url_jsp ∈ queue_items after_mixed) ∧
  (url_jsp = seed_x ∨
   ∃ ps pv, @urlparse env_mixed seed_x = Some ps ∧
     @urlparse env_mixed url_jsp = Some pv ∧
     Urllib.netloc pv = Urllib.netloc ps).
Proof.
  assert (@run env_mixed sched_mixed (start seed_x) = Some after_mixed) as Hrun
    by (vm_compute; reflexivity).
  assert (url_jsp ∈ visited_urls after_mixed ∨
          url_jsp ∈ discovered_urls after_mixed ∨
          Some url_jsp ∈ queue_items after_mixed) as Hv
    by (left; by_compute).
  split; [exact Hrun|]. split; [exact Hv|].
  exact (@crawl_stays_on_netloc env_mixed seed_x sched_mixed after_mixed
           url_jsp Hrun Hv).
Defined.

(** X12: What [extract_links] returns for a page, with other tasks running
    in between: every returned link is a link of the page, and a link of the
    page is left out only if it is already in the Visited Set. *)
Theorem extracted_links_of_page `{env : Env} seed cs s i u links :
  run cs (start seed) = Some s →
  tasks s !! i = Some (Extracting u [] links) →
  (∀ v, v ∈ links → v ∈ page_links u) ∧
  (∀ v, v ∈ page_links u → v ∈ links ∨ v ∈ visited_urls s).
Proof.
  intros Hr%run_reachable Hi.
  destruct (links_ok_reachable _ _ Hr) as [_ _ _ _ _ _ Hex].
  destruct (Hex _ _ _ _ Hi) as [H1 H2]. split.
  - intros v Hv. apply H1. by left.
  - intros v Hv. destruct (H2 v Hv) as [?|[?|Hn]]; [by left|by right|].
    by apply elem_of_nil in Hn.
Qed.

Lemma extracted_links_of_page_witness :
  @run env_mixed sched_extracted (start seed_x) = Some extracted ∧
  tasks extracted !! 0
    = Some (Extracting seed_x []
              (list_to_set [url_a; url_jsp; url_js; url_other])) ∧
  (∀ v, v ∈ (list_to_set [url_a; url_jsp; url_js; url_other] : gset string) →
        v ∈ @page_links env_mixed seed_x) ∧
  (∀ v, v ∈ @page_links env_mixed seed_x →
        v ∈ (list_to_set [url_a; url_jsp; url_js; url_other] : gset string)
        ∨ v ∈ visited_urls extracted).
Proof.
  assert (@run env_mixed sched_extracted (start seed_x) = Some extracted)
    as Hrun by (vm_compute; reflexivity).
  assert (tasks extracted !! 0
          = Some (Extracting seed_x []
                    (list_to_set [url_a; url_jsp; url_js; url_other])))
    as Hi by (vm_compute; reflexivity).
  split; [exact Hrun|]. split; [exact Hi|].
  exact (@extracted_links_of_page env_mixed seed_x sched_extracted extracted 0
           seed_x _ Hrun Hi).
Defined.

Lemma no_budget_never_reached `{env : Env} V :
  max_requests = None ∨ max_requests = Some 0%Z → budget_reached V = false.
Proof. unfold budget_reached. by intros [->| ->]. Qed.

Lemma puts_pending `{env : Env} seed s :
  max_requests = None ∨ max_requests = Some 0%Z → reachable seed s →
  ∀ p v, (p, Some v) ∈ puts (trace s) →
    v ∈ visited_urls s ∨ Some v ∈ queue_items s.
Proof.
  intros Hmax. revert s.
  apply (reachable_inv seed
           (λ s, ∀ p v, (p, Some v) ∈ puts (trace s) →
                   v ∈ visited_urls s ∨ Some v ∈ queue_items s)).
  - intros p v [?|?%elem_of_nil]%elem_of_cons; [|done]. simplify_eq.
    right. by left.
  - intros s c s' _ IH Hc.
    destruct Hc;
      try (pose proof (puts_enqueued url
             (accepted url (visited_urls s) order).1
             (accepted url (visited_urls s) order).2 s) as Hps;
           simpl in Hps);
      rewrite ?cancel_all_frame; simpl;
      rewrite ?Hps, ?puts_app, ?puts_cancels; simpl; try done.
    + intros p v Hp. destruct (IH p v Hp) as [?|Hq]; [by left|right].
      match goal with Hq' : queue_items _ = _ |- _ => rewrite Hq' in Hq end.
      by apply elem_of_cons in Hq as [?|?].
    + intros p v Hp. destruct (IH p v Hp) as [?|Hq]; [by left|].
      match goal with Hq' : queue_items _ = _ |- _ => rewrite Hq' in Hq end.
      apply elem_of_cons in Hq as [?|?]; [|by right]. simplify_eq. left.
      match goal with Hb : _ ∨ budget_reached _ = true |- _ =>
        destruct Hb as [?|Hb]; [done|];
        by rewrite no_budget_never_reached in Hb end.
    + intros p v Hp. destruct (IH p v Hp) as [?|Hq].
      * left. apply elem_of_union. by right.
      * match goal with Hq' : queue_items _ = _ |- _ => rewrite Hq' in Hq end.
        apply elem_of_cons in Hq as [?|?]; [|by right]. simplify_eq.
        left. apply elem_of_union. left. by apply elem_of_singleton.
    + intros p v [Hp|Hp]%elem_of_app.
      * right. apply elem_of_app. right.
        apply elem_of_reverse, list_elem_of_fmap in Hp as (w & ? & Hw).
        simplify_eq. apply list_elem_of_fmap. by exists w.
      * destruct (IH p v Hp) as [?|?]; [by left|right].
        apply elem_of_app. by left.
Qed.

(** X13: Without a budget (none given, or [0]), when [join] has returned every
    URL that was put on the queue has been crawled; in particular every
    discovered URL is a visited one. *)
Theorem discovered_are_visited `{env : Env} seed cs s :
  max_requests = None ∨ max_requests = Some 0%Z →
  run cs (start seed) = Some s → orchestrator s ≠ Joining →
  (∀ p v, EvPut p (Some v) ∈ trace s → v ∈ visited_urls s) ∧
  discovered_urls s ⊆ visited_urls s.
Proof.
  intros Hmax Hr%run_reachable Hj.
  destruct (ctl_joined _ (ctl_ok_reachable _ _ Hr) Hj) as (_ & Hq & _).
  assert (∀ p v, EvPut p (Some v) ∈ trace s → v ∈ visited_urls s) as Hput.
  { intros p v Hp%elem_of_puts.
    destruct (puts_pending seed s Hmax Hr p v Hp) as [?|Hin]; [done|].
    rewrite Hq in Hin. by apply elem_of_nil in Hin. }
  split; [done|]. intros v Hv.
  destruct (links_ok_reachable _ _ Hr) as [_ _ Hd _ _ _ _].
  apply Hd in Hv as (_ & u & Hu%elem_of_puts). by eapply Hput.
Qed.

Lemma discovered_are_visited_witness :
  (@max_requests env_diamond = None ∨ @max_requests env_diamond = Some 0%Z) ∧
  @run env_diamond sched_diamond (start seed_x) = Some after_diamond ∧
  orchestrator after_diamond ≠ Joining ∧
  (∀ p v, EvPut p (Some v) ∈ trace after_diamond →
     v ∈ visited_urls after_diamond) ∧
  discovered_urls after_diamond ⊆ visited_urls after_diamond.
Proof.
  assert (@run env_diamond sched_diamond (start seed_x) = Some after_diamond)
    as Hrun by (vm_compute; reflexivity).
  assert (orchestrator after_diamond ≠ Joining) as Hj
    by (vm_compute; discriminate).
  split; [by left|]. split; [exact Hrun|]. split; [exact Hj|].
  exact (@discovered_are_visited env_diamond seed_x sched_diamond after_diamond
           (or_introl eq_refl) Hrun Hj).
Defined.

Lemma measure_decreases_startable `{env : Env} U s c s' :
  (∀ i order url q,
     c = Task i order → queue_items s = Some url :: q →
     url ∉ visited_urls s → budget_reached (visited_urls s) = false →
     url ∈ U) →
  length (tasks s) = number_of_workers →
  segment c s s' → measure U s' < measure U s.
Proof.
  intros HU Hlen Hc.
  destruct Hc; unfold measure; rewrite ?cancel_all_frame; simpl.
  all: try (match goal with Ht : tasks _ !! ?i = Some _
              |- context [<[?i:=?w']> _] =>
              pose proof (sum_list_insert pot _ _ _ w' Ht) as Hs;
              cbn [pot length] in Hs end).
  all: try (match goal with Hq : queue_items _ = _ |- _ => rewrite Hq in * end);
    simpl.
  all: try (match goal with Ho : outcome _ = _ |- _ =>
              unfold after_load in Hs; rewrite Ho in Hs end);
    rewrite ?size_empty in *.
  all: try (match goal with Ho : orchestrator _ = _ |- _ => rewrite Ho end);
    simpl.
  all: try lia.
  - pose proof (sum_list_filter_drop cost (visited_urls s) url U) as Hd.
    unfold cost in Hd at 2. cbn [pot] in Hd.
    assert (url ∈ U) as HinU by (by eapply (HU i order url q)).
    specialize (Hd HinU ltac:(done)). lia.
  - match goal with He : extract_link _ _ _ _ = Some _ |- _ =>
      apply extract_link_size in He end. lia.
  - rewrite length_app, length_fmap.
    pose proof (accepted_length url (visited_urls s) order) as Ha.
    match goal with Hp : _ ≡ₚ _ |- _ => apply Permutation_length in Hp end.
    unfold size, set_size in Hs. simpl in *. lia.
  - pose proof (pot_cancelled (tasks s)). unfold number_of_workers in *. lia.
Qed.

Lemma within_mono `{env : Env} seed n m v :
  within seed n v → n ≤ m → within seed m v.
Proof.
  intros Hw. revert m. induction Hw as [n|n u v _ IH He]; intros m Hle.
  - constructor.
  - destruct m as [|m]; [lia|]. eapply within_link; [|done]. apply IH. lia.
Qed.

Lemma ball_seed `{env : Env} seed n : seed ∈ ball seed n.
Proof.
  induction n as [|n IH]; simpl; [by left|]. apply elem_of_app. by left.
Qed.

Lemma within_ball `{env : Env} seed n v : within seed n v → v ∈ ball seed n.
Proof.
  induction 1 as [n|n u v _ IH [Hin Hn]]; [apply ball_seed|].
  simpl. apply elem_of_app. right. apply list_elem_of_bind.
  exists u. split; [|done]. by apply list_elem_of_filter.
Qed.

Lemma visited_within `{env : Env} seed s :
  reachable seed s →
  ∀ v, v ∈ visited_urls s → ∃ n, n < size (visited_urls s) ∧ within seed n v.
Proof.
  revert s.
  apply (reachable_inv seed
           (λ s, ∀ v, v ∈ visited_urls s →
                   ∃ n, n < size (visited_urls s) ∧ within seed n v)).
  - intros v Hv. by apply not_elem_of_empty in Hv.
  - intros s c s' Hr IH Hc.
    destruct (segment_visited _ _ _ Hc)
      as [->|(i & order & url & q & _ & Hq & Hnew & _ & ->)]; [done|].
    assert (size ({[url]} ∪ visited_urls s) = S (size (visited_urls s))) as ->.
    { rewrite size_union, size_singleton; [done|]. set_solver. }
    destruct (links_ok_reachable _ _ Hr) as [_ Hputs _ Hqueue _ _ _].
    intros v [->%elem_of_singleton|Hv]%elem_of_union.
    + destruct (Hqueue url) as [->|(u & Hu)]; [rewrite Hq; by left| |].
      * exists 0. split; [lia|constructor].
      * apply Hputs in Hu as (Hu & He & _).
        destruct (IH u Hu) as (n & ? & ?). exists (S n).
        split; [lia|by eapply within_link].
    + destruct (IH v Hv) as (n & ? & ?). exists n. split; [lia|done].
Qed.

Lemma startable_in_ball `{env : Env} seed s n url q :
  max_requests = Some n → reachable seed s →
  queue_items s = Some url :: q →
  budget_reached (visited_urls s) = false →
  n ≠ 0%Z → url ∈ ball seed (Z.to_nat n).
Proof.
  intros Hn Hr Hq Hb Hne. unfold budget_reached in Hb. rewrite Hn in Hb.
  apply andb_false_iff in Hb as [Hb|Hb].
  { apply negb_false_iff, Z.eqb_eq in Hb. done. }
  apply Z.leb_gt in Hb.
  destruct (links_ok_reachable _ _ Hr) as [_ Hputs _ Hqueue _ _ _].
  apply within_ball.
  destruct (Hqueue url) as [->|(u & Hu)]; [rewrite Hq; by left| |].
  - constructor.
  - apply Hputs in Hu as (Hu & He & _).
    destruct (visited_within seed s Hr u Hu) as (k & Hk & Hw).
    apply (within_mono seed (S k)); [by eapply within_link|lia].
Qed.

Lemma run_bounded_budget `{env : Env} seed n cs s0 s :
  max_requests = Some n → n ≠ 0%Z →
  reachable seed s0 → run cs s0 = Some s →
  length cs + measure (ball seed (Z.to_nat n)) s
  ≤ measure (ball seed (Z.to_nat n)) s0.
Proof.
  intros Hn Hne. revert s0. induction cs as [|c cs IH]; intros s0 Hr; simpl.
  - intros ?; simplify_eq. lia.
  - destruct (step c s0) as [s1|] eqn:Hc; [|done]. intros Hrun.
    pose proof (reachable_step _ _ _ _ Hr Hc) as Hr1.
    apply step_segment in Hc.
    assert (measure (ball seed (Z.to_nat n)) s1
            < measure (ball seed (Z.to_nat n)) s0).
    { apply (measure_decreases_startable _ s0 c);
        [|exact (ctl_tasks _ (ctl_ok_reachable _ _ Hr))|done].
      intros i order url q _ Hq _ Hb.
      exact (startable_in_ball seed s0 n url q Hn Hr Hq Hb Hne). }
    specialize (IH _ Hr1 Hrun). lia.
Qed.

(** X4: With a budget other than [0] the crawl ends on every site, be it
    cyclic or without end, provided the browser never raises when it opens
    or closes a page: the length of a run is bounded, no state before [main]
    returns is stuck, and the Visited Set never holds more URLs than the
    budget (none at all for a negative one). *)
Theorem budget_bounds_every_crawl `{env : Env} seed n :
  max_requests = Some n → n ≠ 0%Z →
  (∀ u, reliable u) →
  terminates (start seed)
    (λ s, (Z.of_nat (size (visited_urls s)) ≤ Z.max 0 n)%Z).
Proof.
  intros Hn Hne Hrel. exists (measure (ball seed (Z.to_nat n)) (start seed)).
  intros cs s Hrun. assert (reachable seed s) as Hr by by exists cs.
  split_and!.
  - pose proof (run_bounded_budget seed n cs _ _ Hn Hne
                  (reachable_start seed) Hrun). lia.
  - intros _. destruct (Z.lt_total n 0) as [Hneg|[?|Hpos]]; [|done|].
    + rewrite (negative_budget_visited seed s n Hn Hneg Hr), size_empty. lia.
    + pose proof (vis_budget _ (visit_ok_reachable _ _ Hr) n Hn Hpos). lia.
  - apply (progress seed); [done|]. intros u _. apply Hrel.
Qed.

Lemma budget_bounds_every_crawl_witness :
  @max_requests env_chain = Some 2%Z ∧
  2%Z ≠ 0%Z ∧
  (∀ u, @reliable env_chain u) ∧
  @terminates env_chain (start seed_x)
    (λ s, (Z.of_nat (size (visited_urls s)) ≤ Z.max 0 2)%Z).
Proof.
  assert (∀ u, @reliable env_chain u) as Hrel by (intros u; by split).
  split; [reflexivity|]. split; [discriminate|]. split; [exact Hrel|].
  exact (@budget_bounds_every_crawl env_chain seed_x 2%Z eq_refl
           ltac:(discriminate) Hrel).
Defined.

Lemma task_dones_app tr1 tr2 :
  task_dones (tr1 ++ tr2) = task_dones tr1 ++ task_dones tr2.
Proof.
  induction tr1 as [|e tr1 IH]; simpl; [done|].
  destruct e; simpl; by rewrite ?IH.
Qed.

Lemma task_dones_cancels l : task_dones (reverse (EvCancel <$> l)) = [].
Proof.
  induction l as [|i l IH]; csimpl; [done|].
  by rewrite reverse_cons, task_dones_app, IH.
Qed.

Lemma task_dones_enqueued `{env : Env} url added err s :
  task_dones (trace (enqueued url added err s)) = task_dones (trace s).
Proof.
  simpl. rewrite !task_dones_app.
  assert (task_dones (if err then [EvErrCrawl url] else []) = []) as ->
    by by destruct err.
  simpl.
  assert (task_dones (reverse ((λ v, EvPut (Some url) (Some v)) <$> added))
          = []) as ->; [|done].
  induction added as [|v l IH]; csimpl; [done|].
  by rewrite reverse_cons, task_dones_app, IH.
Qed.

Lemma sum_list_busy_lookup (ts : list wstate) i w :
  ts !! i = Some w → busy w = true → 0 < sum_list (busy1 <$> ts).
Proof.
  revert i. induction ts as [|w' ts IH]; intros [|i]; csimpl; try done.
  - intros ? Hb; simplify_eq. unfold busy1. rewrite Hb. lia.
  - intros Hi Hb. specialize (IH i Hi Hb). lia.
Qed.

(** X14: The queue's count of unfinished items is the number of [put]s not
    yet matched by a [task_done]: [task_done] is never called more often
    than [put] (the call never raises), and when [join] has returned every
    [put], a duplicate included, has been matched by one [task_done]. *)
Theorem task_done_matches_put `{env : Env} seed cs s :
  run cs (start seed) = Some s →
  length (task_dones (trace s)) + unfinished_tasks s
    = length (puts (trace s)) ∧
  (orchestrator s ≠ Joining →
     length (task_dones (trace s)) = length (puts (trace s))).
Proof.
  intros Hr%run_reachable.
  assert (length (task_dones (trace s)) + unfinished_tasks s
          = length (puts (trace s))) as Heq.
  { revert s Hr.
    apply (reachable_inv seed
             (λ s, length (task_dones (trace s)) + unfinished_tasks s
                   = length (puts (trace s)))); [done|].
    intros s c s' Hr IH Hc.
    destruct (ctl_ok_reachable _ _ Hr) as [_ _ _ Hjoining Hjoined _].
    assert (∀ i w, tasks s !! i = Some w → w ≠ Cancelled → w ≠ Cancelling →
              unfinished_tasks s
              = length (queue_items s) + sum_list (busy1 <$> tasks s)) as Hu.
    { intros i w Hi Hw Hw'. destruct (orchestrator s) eqn:Ho;
        [by destruct Hjoining as (? & _)| |];
        (destruct Hjoined as (_ & _ & Hall & _); [done|];
         apply (Forall_lookup_1 _ _ _ _ Hall) in Hi; by destruct Hi). }
    destruct Hc;
      try (pose proof (puts_enqueued url
             (accepted url (visited_urls s) order).1
             (accepted url (visited_urls s) order).2 s) as Hps;
           pose proof (task_dones_enqueued url
             (accepted url (visited_urls s) order).1
             (accepted url (visited_urls s) order).2 s) as Hds;
           simpl in Hps, Hds);
      rewrite ?cancel_all_frame; simpl;
      rewrite ?Hps, ?Hds, ?puts_app, ?puts_cancels, ?task_dones_app,
        ?task_dones_cancels; simpl; try done.
    - match goal with Ht : tasks _ !! _ = Some _ |- _ =>
        pose proof (Hu _ _ Ht ltac:(done) ltac:(done)) as Hn end.
      match goal with Hq : queue_items _ = _ |- _ => rewrite Hq in Hn end.
      simpl in Hn. lia.
    - match goal with Ht : tasks _ !! _ = Some _ |- _ =>
        pose proof (Hu _ _ Ht ltac:(done) ltac:(done)) as Hn end.
      match goal with Hq : queue_items _ = _ |- _ => rewrite Hq in Hn end.
      simpl in Hn. lia.
    - rewrite length_app, length_reverse, length_fmap. lia.
    - match goal with Ht : tasks _ !! _ = Some _ |- _ =>
        pose proof (Hu _ _ Ht ltac:(done) ltac:(done)) as Hn;
        pose proof (sum_list_busy_lookup _ _ _ Ht eq_refl) end.
      lia. }
  split; [done|]. intros Hj.
  destruct (ctl_joined _ (ctl_ok_reachable _ _ Hr) Hj) as (Hz & _).
  rewrite Hz in Heq. lia.
Qed.

Lemma task_done_matches_put_witness :
  @run env_diamond sched_second_put (start seed_x) = Some second_put ∧
  length (task_dones (trace second_put)) + unfinished_tasks second_put
    = length (puts (trace second_put)) ∧
  (orchestrator second_put ≠ Joining →
     length (task_dones (trace second_put))
     = length (puts (trace second_put))).
Proof.
  assert (@run env_diamond sched_second_put (start seed_x) = Some second_put)
    as Hrun by (vm_compute; reflexivity).
  split; [exact Hrun|].
  exact (@task_done_matches_put env_diamond seed_x sched_second_put second_put
           Hrun).
Defined.

(** ** Recording headers and queueing links *)

Lemma handle_response_app r1 r2 m :
  handle_response (r1 ++ r2) m = handle_response r2 (handle_response r1 m).
Proof. unfold handle_response. by rewrite foldl_app. Qed.

Lemma handle_response_untouched r m k :
  (∀ x, (k, x) ∉ r) → handle_response r m !! k = m !! k.
Proof.
  unfold handle_response. revert m.
  induction r as [|[h v] r IH]; intros m Hk; simpl; [done|].
  rewrite IH by (intros x Hx; apply (Hk x); by right).
  case_bool_decide; [done|]. simpl. apply lookup_insert_ne.
  intros ->. apply (Hk v). by left.
Qed.

Lemma handle_response_ignored r m k :
  Str.lower k ∈ ignored_headers → handle_response r m !! k = m !! k.
Proof.
  intros Hi. unfold handle_response. revert m.
  induction r as [|[h v] r IH]; intros m; simpl; [done|].
  rewrite IH. case_bool_decide as Hh; [done|]. simpl.
  apply lookup_insert_ne. by intros ->.
Qed.

(** X15: How one response changes the Header Map.  A name on the ignore-list,
    in any letter case, leaves its entry as it was; so does a name the
    response does not carry; and for any other name the last header of that
    name in the response sets the value, whatever was stored before. *)
Theorem handle_response_last_wins (r : list (string * string))
    (m : gmap string string) (k : string) :
  (Str.lower k ∈ ignored_headers → handle_response r m !! k = m !! k) ∧
  ((∀ x, (k, x) ∉ r) → handle_response r m !! k = m !! k) ∧
  (∀ r1 r2 x,
     r = r1 ++ (k, x) :: r2 → (∀ y, (k, y) ∉ r2) →
     Str.lower k ∉ ignored_headers →
     handle_response r m !! k = Some x).
Proof.
  split_and!.
  - apply handle_response_ignored.
  - apply handle_response_untouched.
  - intros r1 r2 x -> Hlast Hi.
    rewrite handle_response_app.
    change ((k, x) :: r2) with ([(k, x)] ++ r2).
    rewrite handle_response_app, handle_response_untouched by done.
    unfold handle_response at 1. simpl.
    rewrite bool_decide_eq_false_2 by done. simpl. apply lookup_insert_eq.
Qed.

(** X16: When [urlparse] raises on a link, the loop over the new links of
    [crawl_page] stops there: the links before it in iteration order have
    been handled as usual and stay queued, the links after it are dropped,
    and the error line is printed. *)
Theorem bad_link_ends_loop `{env : Env} url (l1 l2 : list string) bad s :
  is_Some (urlparse url) →
  (∀ w, w ∈ l1 → is_Some (urlparse w)) →
  urlparse bad = None →
  enqueue_links url (l1 ++ bad :: l2) s =
  emit (EvErrCrawl url) (enqueue_links url l1 s).
Proof.
  intros [pb Hb] Hl1 Hbad. revert s.
  induction l1 as [|w l1 IH]; intros s; simpl.
  - by rewrite Hbad.
  - destruct (Hl1 w) as [pw Hw]; [by left|]. rewrite Hw, Hb.
    assert (∀ s, enqueue_links url (l1 ++ bad :: l2) s =
                 emit (EvErrCrawl url) (enqueue_links url l1 s)) as IH'.
    { apply IH. intros w' ?. apply Hl1. by right. }
    by repeat case_match.
Qed.

Lemma bad_link_ends_loop_witness :
  is_Some (@urlparse env_mixed seed_x) ∧
  (∀ w, w ∈ [url_p] → is_Some (@urlparse env_mixed w)) ∧
  @urlparse env_mixed "https://[x.test/" = None ∧
  @enqueue_links env_mixed seed_x ([url_p] ++ "https://[x.test/" :: [url_q])
    (start seed_x) =
  emit (EvErrCrawl seed_x) (@enqueue_links env_mixed seed_x [url_p] (start seed_x)).
Proof.
  assert (is_Some (@urlparse env_mixed seed_x)) as H1 by by_compute.
  assert (∀ w, w ∈ [url_p] → is_Some (@urlparse env_mixed w)) as H2.
  { intros w ->%list_elem_of_singleton. by_compute. }
  assert (@urlparse env_mixed "https://[x.test/" = None) as H3
    by (vm_compute; reflexivity).
  split; [exact H1|]. split; [exact H2|]. split; [exact H3|].
  exact (@bad_link_ends_loop env_mixed seed_x [url_p] [url_q]
           "https://[x.test/" (start seed_x) H1 H2 H3).
Defined.

(** ** The argument handling of the script *)

(** X17: The value of a flag is the argument right after the first
    occurrence of the flag in [sys.argv]: the lookup finds nothing exactly
    when the flag is absent, raises [IndexError] exactly when that first
    occurrence is the last argument, and otherwise returns the argument
    that follows it, whatever comes later. *)
Theorem flag_value_after_first_occurrence (flag : string) (argv : list string) :
  (after_flag flag argv = None ↔ flag ∉ argv) ∧
  (after_flag flag argv = Some None ↔
     ∃ pre, argv = pre ++ [flag] ∧ flag ∉ pre) ∧
  (∀ v, after_flag flag argv = Some (Some v) ↔
     ∃ pre post, argv = pre ++ flag :: v :: post ∧ flag ∉ pre).
Proof.
  induction argv as [|a rest (IH1 & IH2 & IH3)]; simpl.
  - split_and!.
    + split; [intros _; apply not_elem_of_nil|done].
    + split; [done|]. intros (pre & Heq & _). by destruct pre.
    + intros v. split; [done|]. intros (pre & post & Heq & _). by destruct pre.
  - destruct (String.eqb_spec a flag) as [->|Hne].
    + split_and!.
      * split; [done|]. intros Hn. exfalso. apply Hn. by left.
      * split.
        -- destruct rest as [|b rest']; [|done]. intros _. exists [].
           split; [done|apply not_elem_of_nil].
        -- intros (pre & Heq & Hn).
           destruct pre as [|x pre]; simpl in Heq; simplify_eq; [done|].
           exfalso. apply Hn. by left.
      * intros v. split.
        -- destruct rest as [|b rest']; [done|]. simpl. intros ?; simplify_eq.
           exists [], rest'. split; [done|apply not_elem_of_nil].
        -- intros (pre & post & Heq & Hn).
           destruct pre as [|x pre]; simpl in Heq; simplify_eq; [done|].
           exfalso. apply Hn. by left.
    + split_and!.
      * rewrite IH1, not_elem_of_cons. naive_solver.
      * rewrite IH2. split.
        -- intros (pre & -> & Hn). exists (a :: pre). split; [done|].
           apply not_elem_of_cons. done.
        -- intros (pre & Heq & Hn).
           destruct pre as [|x pre]; simpl in Heq; simplify_eq.
           apply not_elem_of_cons in Hn as [_ Hn]. by exists pre.
      * intros v. rewrite IH3. split.
        -- intros (pre & post & -> & Hn). exists (a :: pre), post.
           split; [done|]. apply not_elem_of_cons. done.
        -- intros (pre & post & Heq & Hn).
           destruct pre as [|x pre]; simpl in Heq; simplify_eq.
           apply not_elem_of_cons in Hn as [_ Hn]. by exists pre, post.
Qed.

(** X18: What the script makes of its arguments, whatever texts [int]
    accepts.  It stops with the usage message exactly when fewer than two
    arguments are given.  It stops with the [--max-requests] error exactly
    when two arguments or more are given and the first [--max-requests] is
    the last argument or is followed by a text on which [int] raises.  When
    it goes on to crawl, the start URL is the second argument, taken as it
    is; a budget is set exactly when [--max-requests] occurs, to what [int]
    makes of the argument after its first occurrence; an output file is set
    exactly when [--output-file] occurs, to the argument after its first
    occurrence. *)
Theorem script_reads_arguments (int : string → option Z)
    (argv : list string) :
  (script_with int argv = UsageError ↔ length argv < 2) ∧
  (script_with int argv = MaxRequestsError ↔
     2 ≤ length argv ∧
     (after_flag "--max-requests" argv = Some None ∨
      ∃ t, after_flag "--max-requests" argv = Some (Some t) ∧ int t = None)) ∧
  (∀ u b o, script_with int argv = Crawl u b o →
     argv !! 1 = Some u ∧
     (b = None ↔ "--max-requests" ∉ argv) ∧
     (∀ n, b = Some n →
        ∃ t, after_flag "--max-requests" argv = Some (Some t)
             ∧ int t = Some n) ∧
     (o = None ↔ "--output-file" ∉ argv) ∧
     (∀ f, o = Some f → after_flag "--output-file" argv = Some (Some f))).
Proof.
  destruct (flag_value_after_first_occurrence "--max-requests" argv)
    as (Hm & _ & _).
  destruct (flag_value_after_first_occurrence "--output-file" argv)
    as (Ho & _ & _).
  unfold script_with.
  destruct argv as [|prog [|start_url rest]]; simpl length.
  - split_and!; [split; [lia|done]|split; [done|lia]|done].
  - split_and!; [split; [lia|done]|split; [done|lia]|done].
  - split_and!; [split; [|lia]| |].
    + repeat case_match; done.
    + destruct (after_flag "--max-requests" (prog :: start_url :: rest))
        as [[t|]|] eqn:Hmax; [destruct (int t) as [n|] eqn:Hint| |].
      * split; [by repeat case_match|].
        intros (_ & [?|(t' & ? & ?)]); [done|]. by simplify_eq.
      * split; [intros _|done]. split; [lia|]. right. by exists t.
      * split; [intros _|done]. split; [lia|]. by left.
      * split; [by repeat case_match|].
        by intros (_ & [?|(t' & ? & ?)]).
    + intros u b o Hs.
      destruct (after_flag "--max-requests" (prog :: start_url :: rest))
        as [[t|]|] eqn:Hmax; [destruct (int t) as [n|] eqn:Hint| |];
        try done;
        (destruct (after_flag "--output-file" (prog :: start_url :: rest))
           as [[f|]|] eqn:Hout; [| done |]); simplify_eq; simpl.
      all: split_and!; try done.
      all: try (by split; [done|intros Hn; apply Hm in Hn]).
      all: try (by split; [done|intros Hn; apply Ho in Hn]).
      all: try (by split; [intros _|]; [apply Hm|]).
      all: try (by split; [intros _|]; [apply Ho|]).
      all: try (intros ? ?; simplify_eq; by eauto).
Qed.

(** X19: A flag that is the last argument has no value: the script prints
    its error message and exits with status 1; when both flags are at fault
    the one reported is [--max-requests]. *)
Theorem flag_without_value_exits (argv : list string) :
  2 ≤ length argv →
  (after_flag "--max-requests" argv = Some None →
     script argv = MaxRequestsError ∧ exit_code (script argv) = 1%Z) ∧
  (after_flag "--max-requests" argv = None →
   after_flag "--output-file" argv = Some None →
     script argv = OutputFileError ∧ exit_code (script argv) = 1%Z).
Proof.
  intros Hlen. destruct argv as [|prog [|start_url rest]]; simpl in Hlen;
    [lia..|].
  unfold script, script_with. split.
  - intros ->. done.
  - intros -> ->. done.
Qed.

Lemma flag_without_value_exits_witness :
  2 ≤ length ["nightcrawler.py"; seed_x; "--output-file"] ∧
  (after_flag "--max-requests" ["nightcrawler.py"; seed_x; "--output-file"]
     = Some None →
     script ["nightcrawler.py"; seed_x; "--output-file"] = MaxRequestsError
     ∧ exit_code (script ["nightcrawler.py"; seed_x; "--output-file"]) = 1%Z) ∧
  (after_flag "--max-requests" ["nightcrawler.py"; seed_x; "--output-file"]
     = None →
   after_flag "--output-file" ["nightcrawler.py"; seed_x; "--output-file"]
     = Some None →
     script ["nightcrawler.py"; seed_x; "--output-file"] = OutputFileError
     ∧ exit_code (script ["nightcrawler.py"; seed_x; "--output-file"]) = 1%Z).
Proof.
  split; [simpl; lia|].
  apply (flag_without_value_exits ["nightcrawler.py"; seed_x; "--output-file"]).
  simpl; lia.
Defined.

Lemma digits_value_digit (c : ascii) (t : string) (acc k : Z) :
  Urllib.is_digit c = true → Z.of_nat (nat_of_ascii c - 48) = k →
  digits_value acc (String c t) = digits_value (10 * acc + k) t.
Proof. intros Hc <-. simpl. by rewrite Hc. Qed.

Lemma digits_value_acc (d : Decimal.uint) (acc : positive) :
  digits_value (Z.pos acc) (NilEmpty.string_of_uint d)
  = Some (Z.pos (Pos.of_uint_acc d acc)).
Proof.
  revert acc. induction d as [|d IH|d IH|d IH|d IH|d IH|d IH|d IH|d IH|d IH|d IH];
    intros acc; [done|..];
    cbn [NilEmpty.string_of_uint Pos.of_uint_acc];
    [rewrite (digits_value_digit _ _ _ 0) by done
    |rewrite (digits_value_digit _ _ _ 1) by done
    |rewrite (digits_value_digit _ _ _ 2) by done
    |rewrite (digits_value_digit _ _ _ 3) by done
    |rewrite (digits_value_digit _ _ _ 4) by done
    |rewrite (digits_value_digit _ _ _ 5) by done
    |rewrite (digits_value_digit _ _ _ 6) by done
    |rewrite (digits_value_digit _ _ _ 7) by done
    |rewrite (digits_value_digit _ _ _ 8) by done
    |rewrite (digits_value_digit _ _ _ 9) by done];
    rewrite <-IH; f_equal; lia.
Qed.

Lemma digits_value_uint (d : Decimal.uint) :
  digits_value 0 (NilEmpty.string_of_uint d) = Some (Z.of_uint d).
Proof.
  unfold Z.of_uint.
  induction d as [|d IH|d IH|d IH|d IH|d IH|d IH|d IH|d IH|d IH|d IH];
    [done|..];
    cbn [NilEmpty.string_of_uint Pos.of_uint];
    [rewrite (digits_value_digit _ _ _ 0) by done; exact IH
    |rewrite (digits_value_digit _ _ _ 1) by done
    |rewrite (digits_value_digit _ _ _ 2) by done
    |rewrite (digits_value_digit _ _ _ 3) by done
    |rewrite (digits_value_digit _ _ _ 4) by done
    |rewrite (digits_value_digit _ _ _ 5) by done
    |rewrite (digits_value_digit _ _ _ 6) by done
    |rewrite (digits_value_digit _ _ _ 7) by done
    |rewrite (digits_value_digit _ _ _ 8) by done
    |rewrite (digits_value_digit _ _ _ 9) by done];
    apply digits_value_acc.
Qed.

Lemma python_int_unsigned (c : ascii) (t : string) :
  Urllib.is_digit c = true →
  python_int (String c t) =
  if (max_str_digits <? String.length (String c t))%nat then None
  else digits_value 0 (String c t).
Proof.
  intros Hc.
  destruct c as [[] [] [] [] [] [] [] []]; try discriminate Hc; reflexivity.
Qed.

Lemma string_of_uint_digit (d : Decimal.uint) :
  ∃ c t, NilZero.string_of_uint d = String c t ∧ Urllib.is_digit c = true ∧
    digits_value 0 (String c t) = Some (Z.of_uint d).
Proof.
  pose proof (digits_value_uint d) as Hd.
  destruct d; (eexists _, _; split_and!; [reflexivity|reflexivity|exact Hd]).
Qed.

(** X20: [int] reads back an integer from its decimal numeral, and the
    script takes a budget written that way as given: for every integer [n],
    negative ones and [0] included, whose numeral stays within the limit on
    digits, the arguments [<url> --max-requests <n>] start a crawl of the
    URL with budget [n]. *)
Theorem decimal_budget_is_read (prog url : string) (n : Z) :
  "--max-requests" ∉ [prog; url] → "--output-file" ∉ [prog; url] →
  String.length (decimal n) ≤ max_str_digits →
  python_int (decimal n) = Some n ∧
  script [prog; url; "--max-requests"; decimal n] = Crawl url (Some n) None.
Proof.
  intros Hm Ho Hlen.
  assert (python_int (decimal n) = Some n) as Hint.
  { unfold decimal in *. destruct n as [|p|p]; [done| |].
    - cbn [Z.to_int NilZero.string_of_int] in *.
      destruct (string_of_uint_digit (Pos.to_uint p)) as (c & t & Hs & Hc & Hd).
      rewrite Hs in *. rewrite python_int_unsigned by done.
      rewrite (proj2 (Nat.ltb_ge _ _)) by done. rewrite Hd.
      unfold Z.of_uint. by rewrite DecimalPos.Unsigned.of_to.
    - cbn [Z.to_int NilZero.string_of_int] in *.
      destruct (string_of_uint_digit (Pos.to_uint p)) as (c & t & Hs & Hc & Hd).
      rewrite Hs in *.
      change (python_int (String "-" (String c t))) with
        (Z.opp <$> (if (max_str_digits <? String.length (String c t))%nat
                    then None else digits_value 0 (String c t))).
      rewrite (proj2 (Nat.ltb_ge _ _))
        by (change (String.length (String "-" (String c t)))
              with (S (String.length (String c t))) in Hlen; lia).
      rewrite Hd. unfold Z.of_uint. by rewrite DecimalPos.Unsigned.of_to. }
  split; [done|].
  assert (decimal n ≠ "--output-file") as Hne.
  { intros Heq. rewrite Heq in Hint. vm_compute in Hint. discriminate. }
  apply not_elem_of_cons in Hm as [Hm1 [Hm2 _]%not_elem_of_cons].
  apply not_elem_of_cons in Ho as [Ho1 [Ho2 _]%not_elem_of_cons].
  unfold script, script_with. cbn [after_flag].
  repeat match goal with
  | |- context [String.eqb ?a ?b] =>
      let H := fresh in
      destruct (String.eqb_spec a b) as [H|H]; [congruence|clear H]
  end.
  rewrite String.eqb_refl. cbn [head]. rewrite Hint. done.
Qed.

Lemma decimal_budget_is_read_witness :
  ("--max-requests" ∉ ["nightcrawler.py"; seed_x]) ∧
  ("--output-file" ∉ ["nightcrawler.py"; seed_x]) ∧
  String.length (decimal (-12)) ≤ max_str_digits ∧
  python_int (decimal (-12)) = Some (-12)%Z ∧
  script ["nightcrawler.py"; seed_x; "--max-requests"; decimal (-12)]
  = Crawl seed_x (Some (-12)%Z) None.
Proof.
  assert ("--max-requests" ∉ ["nightcrawler.py"; seed_x]) as Hm by by_compute.
  assert ("--output-file" ∉ ["nightcrawler.py"; seed_x]) as Ho by by_compute.
  assert (String.length (decimal (-12)) ≤ max_str_digits) as Hlen
    by (unfold max_str_digits; simpl; lia).
  split; [exact Hm|]. split; [exact Ho|]. split; [exact Hlen|].
  exact (decimal_budget_is_read "nightcrawler.py" seed_x (-12) Hm Ho Hlen).
Defined.

Lemma nonnegative_budget_open `{env : Env} :
  (∀ n, max_requests = Some n → (0 ≤ n)%Z) → budget_reached ∅ = false.
Proof.
  intros Hn. unfold budget_reached.
  destruct max_requests as [n|]; [|done]. specialize (Hn n eq_refl).
  rewrite size_empty. destruct (Z.eqb_spec n 0) as [->|?]; [done|].
  simpl. apply Z.leb_gt. lia.
Qed.

Lemma start_seed_taken `{env : Env} seed i order :
  budget_reached ∅ = false → i < number_of_workers →
  step (Task i order) (start seed) = Some (seed_taken i seed).
Proof.
  intros Hb Hi. apply step_segment.
  apply (seg_begin i order (start seed) seed []).
  - by apply (lookup_replicate_2 number_of_workers Idle i).
  - done.
  - apply not_elem_of_empty.
  - done.
Qed.

Lemma seed_taken_tasks seed i :
  tasks (seed_taken i seed)
  = <[i:=Opening seed]> (replicate number_of_workers Idle).
Proof. reflexivity. Qed.

Lemma seed_unopened_stuck `{env : Env} seed i c :
  i < number_of_workers → opens seed = false →
  step c (seed_taken i seed) = None.
Proof.
  intros Hi Hopen. destruct c as [j order|]; [|done].
  change (step (Task j order) (seed_taken i seed))
    with (worker_step j order (seed_taken i seed)).
  unfold worker_step. rewrite seed_taken_tasks.
  destruct (decide (j = i)) as [->|Hne].
  - rewrite list_lookup_insert_eq by (by rewrite length_replicate).
    by rewrite Hopen.
  - rewrite list_lookup_insert_ne by done.
    destruct (replicate number_of_workers Idle !! j) as [w|] eqn:Hj; [|done].
    apply lookup_replicate in Hj as [-> _]. done.
Qed.

(** X22: When [browser.new_context] or [context.new_page] raises for the
    seed (and the budget lets the seed be crawled), the crawl hangs: the
    worker that took the seed is over without marking it done, so [main]
    never leaves [url_queue.join()]; once the seed is taken no task can run
    a segment, and no run reaches the return of [main]. *)
Theorem raising_browser_hangs_crawl `{env : Env} seed :
  opens seed = false →
  (∀ n, max_requests = Some n → (0 ≤ n)%Z) →
  (∀ cs s, run cs (start seed) = Some s →
     orchestrator s = Joining ∧ unfinished_tasks s = 1 ∧ length cs ≤ 1) ∧
  (∀ i order, i < number_of_workers →
     run [Task i order] (start seed) = Some (seed_taken i seed) ∧
     tasks (seed_taken i seed) !! i = Some (Opening seed) ∧
     ∀ c, step c (seed_taken i seed) = None).
Proof.
  intros Hopen Hbudget.
  pose proof (nonnegative_budget_open Hbudget) as Hb.
  split.
  - intros [|c cs] s Hrun;
      [simpl in Hrun; simplify_eq; split_and!; [done..|simpl; lia]|].
    cbn [run] in Hrun. destruct c as [i order|]; [|done].
    destruct (decide (i < number_of_workers)) as [Hi|Hi].
    + rewrite (start_seed_taken seed i order Hb Hi) in Hrun.
      destruct cs as [|c' cs];
        [simpl in Hrun; simplify_eq; split_and!; [done..|simpl; lia]|].
      cbn [run] in Hrun.
      by rewrite (seed_unopened_stuck seed i c' Hi Hopen) in Hrun.
    + change (step (Task i order) (start seed))
        with (worker_step i order (start seed)) in Hrun.
      unfold worker_step in Hrun.
      change (tasks (start seed)) with (replicate number_of_workers Idle)
        in Hrun.
      rewrite (proj1 (lookup_replicate_None _ _ _)) in Hrun by lia. done.
  - intros i order Hi. split_and!.
    + cbn [run]. by rewrite (start_seed_taken seed i order Hb Hi).
    + rewrite seed_taken_tasks.
      by rewrite list_lookup_insert_eq by (by rewrite length_replicate).
    + intros c. by apply seed_unopened_stuck.
Qed.

Lemma raising_browser_hangs_crawl_witness :
  @opens env_unopened seed_x = false ∧
  (∀ n, @max_requests env_unopened = Some n → (0 ≤ n)%Z) ∧
  (∀ cs s, @run env_unopened cs (start seed_x) = Some s →
     orchestrator s = Joining ∧ unfinished_tasks s = 1 ∧ length cs ≤ 1) ∧
  (∀ i order, i < number_of_workers →
     @run env_unopened [Task i order] (start seed_x)
       = Some (seed_taken i seed_x) ∧
     tasks (seed_taken i seed_x) !! i = Some (Opening seed_x) ∧
     ∀ c, @step env_unopened c (seed_taken i seed_x) = None).
Proof.
  assert (∀ n, @max_requests env_unopened = Some n → (0 ≤ n)%Z) as Hbudget
    by (intros n Hn; discriminate Hn).
  split; [reflexivity|]. split; [exact Hbudget|].
  exact (@raising_browser_hangs_crawl env_unopened seed_x eq_refl Hbudget).
Defined.
